(** * CTU CAN FD IP core: the CAN frame format header

    A shallow embedding of [driver/ctu_can_fd_frame.h]: the memory map of
    the frame buffer, the seven register overlays
    [union { uint32_t u32; struct { ... bitfields ... } s; }] in both of
    their [__LITTLE_ENDIAN_BITFIELD] / [#else] variants, and the flag
    enumerations of the FRAME_FORM_W word.

    The header is data, so it is embedded as data: every declaration is
    transcribed member by member, in the order of the source.  What gives
    the declarations a meaning is the way a C compiler places bitfields in
    their 32-bit storage unit, which the preprocessor symbol names: with
    [__LITTLE_ENDIAN_BITFIELD] the first declared member takes the least
    significant bits, otherwise the first declared member takes the most
    significant bits.  [layout], [get_field] and [set_field] below are that
    rule, on the raw word seen as an integer in [0, 2^32). *)

From Stdlib Require Import ZArith List String Bool Lia Sorted Permutation.
Import ListNotations.
Local Open Scope string_scope.
Local Open Scope list_scope.
Local Open Scope Z_scope.

(** ** Declarations of the header *)

(** One line [NAME = value,] of an [enum]. *)
Record enumerator : Set := Enumerator { e_name : string; e_value : Z }.

Record enum_decl : Set := EnumDecl { enum_tag : string; enum_body : list enumerator }.

(** One line [uint32_t name : width;] of a bitfield [struct]. *)
Record member : Set := Bits { m_name : string; m_width : Z }.

(** [union tag { uint32_t u32; struct tag_s { #ifdef __LITTLE_ENDIAN_BITFIELD
    s_little #else s_big #endif } s; }].  A struct written without the
    conditional has the same members in both branches. *)
Record union_decl : Set := UnionDecl {
  union_tag : string;
  struct_tag : string;
  s_little : list member;
  s_big : list member
}.

Inductive declaration : Set :=
| DEnum (d : enum_decl)
| DUnion (d : union_decl).

(** Width of the [uint32_t u32] view of every union. *)
Definition u32_bits : Z := 32.

Module Header.

(** CAN_Frame_format memory map *)
Definition ctu_can_fd_can_frame_format : enum_decl :=
  EnumDecl "ctu_can_fd_can_frame_format"
    [ Enumerator "CTU_CAN_FD_FRAME_FORM_W" 0x0;
      Enumerator "CTU_CAN_FD_IDENTIFIER_W" 0x4;
      Enumerator "CTU_CAN_FD_TIMESTAMP_L_W" 0x8;
      Enumerator "CTU_CAN_FD_TIMESTAMP_U_W" 0xc;
      Enumerator "CTU_CAN_FD_DATA_1_4_W" 0x10;
      Enumerator "CTU_CAN_FD_DATA_5_8_W" 0x14;
      Enumerator "CTU_CAN_FD_DATA_61_64_W" 0x4c ].

(** Register descriptions *)
Definition ctu_can_fd_frame_form_w : union_decl :=
  UnionDecl "ctu_can_fd_frame_form_w" "ctu_can_fd_frame_form_w_s"
    [ Bits "dlc" 4;
      Bits "reserved_4" 1;
      Bits "rtr" 1;
      Bits "ide" 1;
      Bits "fdf" 1;
      Bits "tbf" 1;
      Bits "brs" 1;
      Bits "esi_rsv" 1;
      Bits "rwcnt" 5;
      Bits "reserved_31_16" 16 ]
    [ Bits "reserved_31_16" 16;
      Bits "rwcnt" 5;
      Bits "esi_rsv" 1;
      Bits "brs" 1;
      Bits "tbf" 1;
      Bits "fdf" 1;
      Bits "ide" 1;
      Bits "rtr" 1;
      Bits "reserved_4" 1;
      Bits "dlc" 4 ].

Definition ctu_can_fd_frame_form_w_rtr : enum_decl :=
  EnumDecl "ctu_can_fd_frame_form_w_rtr"
    [ Enumerator "NO_RTR_FRAME" 0x0;
      Enumerator "RTR_FRAME" 0x1 ].

Definition ctu_can_fd_frame_form_w_ide : enum_decl :=
  EnumDecl "ctu_can_fd_frame_form_w_ide"
    [ Enumerator "BASE" 0x0;
      Enumerator "EXTENDED" 0x1 ].

Definition ctu_can_fd_frame_form_w_fdf : enum_decl :=
  EnumDecl "ctu_can_fd_frame_form_w_fdf"
    [ Enumerator "NORMAL_CAN" 0x0;
      Enumerator "FD_CAN" 0x1 ].

Definition ctu_can_fd_frame_form_w_tbf : enum_decl :=
  EnumDecl "ctu_can_fd_frame_form_w_tbf"
    [ Enumerator "NOT_TIME_BASED" 0x0;
      Enumerator "TIME_BASED" 0x1 ].

Definition ctu_can_fd_frame_form_w_brs : enum_decl :=
  EnumDecl "ctu_can_fd_frame_form_w_brs"
    [ Enumerator "BR_NO_SHIFT" 0x0;
      Enumerator "BR_SHIFT" 0x1 ].

Definition ctu_can_fd_frame_form_w_esi_rsv : enum_decl :=
  EnumDecl "ctu_can_fd_frame_form_w_esi_rsv"
    [ Enumerator "ESI_ERR_ACTIVE" 0x0;
      Enumerator "ESI_ERR_PASIVE" 0x1 ].

Definition ctu_can_fd_identifier_w : union_decl :=
  UnionDecl "ctu_can_fd_identifier_w" "ctu_can_fd_identifier_w_s"
    [ Bits "identifier_ext" 18;
      Bits "identifier_base" 11;
      Bits "reserved_31_29" 3 ]
    [ Bits "reserved_31_29" 3;
      Bits "identifier_base" 11;
      Bits "identifier_ext" 18 ].

Definition ctu_can_fd_timestamp_l_w : union_decl :=
  UnionDecl "ctu_can_fd_timestamp_l_w" "ctu_can_fd_timestamp_l_w_s"
    [ Bits "time_stamp_31_0" 32 ]
    [ Bits "time_stamp_31_0" 32 ].

(** The member of the upper timestamp word is called [timestamp_l_w] in the
    source. *)
Definition ctu_can_fd_timestamp_u_w : union_decl :=
  UnionDecl "ctu_can_fd_timestamp_u_w" "ctu_can_fd_timestamp_u_w_s"
    [ Bits "timestamp_l_w" 32 ]
    [ Bits "timestamp_l_w" 32 ].

Definition ctu_can_fd_data_1_4_w : union_decl :=
  UnionDecl "ctu_can_fd_data_1_4_w" "ctu_can_fd_data_1_4_w_s"
    [ Bits "data_1" 8;
      Bits "data_2" 8;
      Bits "data_3" 8;
      Bits "data_4" 8 ]
    [ Bits "data_4" 8;
      Bits "data_3" 8;
      Bits "data_2" 8;
      Bits "data_1" 8 ].

Definition ctu_can_fd_data_5_8_w : union_decl :=
  UnionDecl "ctu_can_fd_data_5_8_w" "ctu_can_fd_data_5_8_w_s"
    [ Bits "data_5" 8;
      Bits "data_6" 8;
      Bits "data_7" 8;
      Bits "data_8" 8 ]
    [ Bits "data_8" 8;
      Bits "data_7" 8;
      Bits "data_6" 8;
      Bits "data_5" 8 ].

Definition ctu_can_fd_data_61_64_w : union_decl :=
  UnionDecl "ctu_can_fd_data_61_64_w" "ctu_can_fd_data_61_64_w_s"
    [ Bits "data_61" 8;
      Bits "data_62" 8;
      Bits "data_63" 8;
      Bits "data_64" 8 ]
    [ Bits "data_64" 8;
      Bits "data_63" 8;
      Bits "data_62" 8;
      Bits "data_61" 8 ].

(** The header, declaration by declaration, in the order of the file. *)
Definition ctu_can_fd_frame_h : list declaration :=
  [ DEnum ctu_can_fd_can_frame_format;
    DUnion ctu_can_fd_frame_form_w;
    DEnum ctu_can_fd_frame_form_w_rtr;
    DEnum ctu_can_fd_frame_form_w_ide;
    DEnum ctu_can_fd_frame_form_w_fdf;
    DEnum ctu_can_fd_frame_form_w_tbf;
    DEnum ctu_can_fd_frame_form_w_brs;
    DEnum ctu_can_fd_frame_form_w_esi_rsv;
    DUnion ctu_can_fd_identifier_w;
    DUnion ctu_can_fd_timestamp_l_w;
    DUnion ctu_can_fd_timestamp_u_w;
    DUnion ctu_can_fd_data_1_4_w;
    DUnion ctu_can_fd_data_5_8_w;
    DUnion ctu_can_fd_data_61_64_w ].

End Header.
Import Header.

(** ** Reading the declarations *)

Fixpoint enums_of (ds : list declaration) : list enum_decl :=
  match ds with
  | [] => []
  | DEnum d :: ds' => d :: enums_of ds'
  | DUnion _ :: ds' => enums_of ds'
  end.

Fixpoint unions_of (ds : list declaration) : list union_decl :=
  match ds with
  | [] => []
  | DEnum _ :: ds' => unions_of ds'
  | DUnion d :: ds' => d :: unions_of ds'
  end.

(** The seven overlays. *)
Definition overlays : list union_decl := unions_of ctu_can_fd_frame_h.

(** The value an enumeration gives to a symbolic name. *)
Definition enum_lookup (name : string) (d : enum_decl) : option Z :=
  option_map e_value
    (find (fun e => String.eqb (e_name e) name) (enum_body d)).

Definition enum_values (d : enum_decl) : list Z := map e_value (enum_body d).

Definition offsets : list Z := enum_values ctu_can_fd_can_frame_format.

(** The enumerations that name the values of one member of a union are
    tagged [<union tag>_<member>]. *)
Definition values_of_member (u : union_decl) (d : enum_decl) : option string :=
  let p := (union_tag u ++ "_")%string in
  if String.prefix p (enum_tag d)
  then Some (substring (String.length p)
               (String.length (enum_tag d) - String.length p) (enum_tag d))
  else None.

Fixpoint member_enums (u : union_decl) (ds : list enum_decl)
  : list (string * enum_decl) :=
  match ds with
  | [] => []
  | d :: ds' =>
      match values_of_member u d with
      | Some m => (m, d) :: member_enums u ds'
      | None => member_enums u ds'
      end
  end.

(** The flag enumerations of the FRAME_FORM_W word, each with the member it
    belongs to. *)
Definition flag_enums : list (string * enum_decl) :=
  member_enums ctu_can_fd_frame_form_w (enums_of ctu_can_fd_frame_h).

(** ** Bitfield variants and their placement *)

Inductive bitfield_endian : Set :=
| LITTLE_ENDIAN_BITFIELD
| BIG_ENDIAN_BITFIELD.

(** The branch of the conditional that is compiled. *)
Definition members (e : bitfield_endian) (u : union_decl) : list member :=
  match e with
  | LITTLE_ENDIAN_BITFIELD => s_little u
  | BIG_ENDIAN_BITFIELD => s_big u
  end.

Definition total_width (ms : list member) : Z :=
  fold_right (fun m acc => m_width m + acc) 0 ms.

Definition member_width (name : string) (ms : list member) : option Z :=
  option_map m_width (find (fun m => String.eqb (m_name m) name) ms).

(** A member placed in the storage unit: it occupies the bits
    [f_lsb .. f_lsb + f_width - 1] of the raw word. *)
Record field : Set := Field { f_name : string; f_lsb : Z; f_width : Z }.

(** First member at the low end, each next one above it. *)
Fixpoint alloc_up (pos : Z) (ms : list member) : list field :=
  match ms with
  | [] => []
  | m :: ms' =>
      Field (m_name m) pos (m_width m) :: alloc_up (pos + m_width m) ms'
  end.

(** First member at the high end, each next one below it. *)
Fixpoint alloc_down (top : Z) (ms : list member) : list field :=
  match ms with
  | [] => []
  | m :: ms' =>
      Field (m_name m) (top - m_width m) (m_width m)
        :: alloc_down (top - m_width m) ms'
  end.

Definition layout (e : bitfield_endian) (u : union_decl) : list field :=
  match e with
  | LITTLE_ENDIAN_BITFIELD => alloc_up 0 (s_little u)
  | BIG_ENDIAN_BITFIELD => alloc_down u32_bits (s_big u)
  end.

Definition find_field (name : string) (ly : list field) : option field :=
  find (fun f => String.eqb (f_name f) name) ly.

(** ** The two views of a union *)

Definition uint32 (w : Z) : Prop := 0 <= w < 2 ^ u32_bits.

Definition field_mask (f : field) : Z := Z.shiftl (Z.ones (f_width f)) (f_lsb f).

(** Largest value a member of this width holds. *)
Definition field_max (f : field) : Z := Z.ones (f_width f).

Definition covers (f : field) (i : Z) : bool :=
  (f_lsb f <=? i) && (i <? f_lsb f + f_width f).

(** Two members that share no bit. *)
Definition disjoint (f g : field) : Prop :=
  f_lsb f + f_width f <= f_lsb g \/ f_lsb g + f_width g <= f_lsb f.

(** A member that lies inside the storage unit. *)
Definition in_unit (f : field) : Prop :=
  0 <= f_lsb f /\ 0 < f_width f /\ f_lsb f + f_width f <= u32_bits.

(** [u.s.name] as an rvalue, [u.u32] being [w]. *)
Definition get_field (f : field) (w : Z) : Z :=
  Z.land (Z.shiftr w (f_lsb f)) (Z.ones (f_width f)).

(** [u.s.name = v;], [u.u32] being [w] before: the value is truncated to the
    width of the member and stored in its bits. *)
Definition set_field (f : field) (v w : Z) : Z :=
  Z.lor (Z.land w (Z.lnot (field_mask f)))
        (Z.shiftl (Z.land v (Z.ones (f_width f))) (f_lsb f)).

(** Several assignments [u.s.f1 = v1; u.s.f2 = v2; ...] in a row. *)
Definition store (fvs : list (field * Z)) (w : Z) : Z :=
  fold_left (fun acc fv => set_field (fst fv) (snd fv) acc) fvs w.

(** Access by member name; [None] for a name the struct does not declare. *)
Definition read (e : bitfield_endian) (u : union_decl) (name : string) (w : Z)
  : option Z :=
  option_map (fun f => get_field f w) (find_field name (layout e u)).

Definition write (e : bitfield_endian) (u : union_decl) (name : string)
  (v w : Z) : option Z :=
  option_map (fun f => set_field f v w) (find_field name (layout e u)).

(** The struct view of a word: every member with its value, in declaration
    order. *)
Definition decode (e : bitfield_endian) (u : union_decl) (w : Z)
  : list (string * Z) :=
  map (fun f => (f_name f, get_field f w)) (layout e u).

(** The word obtained from a cleared union by assigning the members one
    after the other. *)
Definition assign (e : bitfield_endian) (u : union_decl)
  (acc : option Z) (nv : string * Z) : option Z :=
  match acc with
  | Some w => write e u (fst nv) (snd nv) w
  | None => None
  end.

Definition encode_from (e : bitfield_endian) (u : union_decl) (w0 : Z)
  (s : list (string * Z)) : option Z :=
  fold_left (assign e u) s (Some w0).

Definition encode (e : bitfield_endian) (u : union_decl)
  (s : list (string * Z)) : option Z :=
  encode_from e u 0 s.

(** The raw word read back after every bit of one member was set in a
    cleared union. *)
Definition set_max (e : bitfield_endian) (u : union_decl) (name : string)
  : option Z :=
  match find_field name (layout e u) with
  | Some f => Some (set_field f (field_max f) 0)
  | None => None
  end.

(** ** Names that tie the declarations together *)

(** The memory map names the word of a union by the union's tag in upper
    case: [union ctu_can_fd_identifier_w] lives at
    [CTU_CAN_FD_IDENTIFIER_W]. *)
Definition upper_ascii (c : Ascii.ascii) : Ascii.ascii :=
  let n := Ascii.nat_of_ascii c in
  if (97 <=? n)%nat && (n <=? 122)%nat
  then Ascii.ascii_of_nat (n - 32)
  else c.

Fixpoint upper (s : string) : string :=
  match s with
  | EmptyString => EmptyString
  | String c s' => String (upper_ascii c) (upper s')
  end.

Definition offset_of (u : union_decl) : option Z :=
  enum_lookup (upper (union_tag u)) ctu_can_fd_can_frame_format.

(** The members of the data words are called [data_<n>], [n] being the
    number of the payload byte, counted from 1. *)
Definition digit (c : Ascii.ascii) : option Z :=
  let n := Ascii.nat_of_ascii c in
  if (48 <=? n)%nat && (n <=? 57)%nat
  then Some (Z.of_nat (n - 48))
  else None.

Fixpoint decimal (acc : Z) (s : string) : option Z :=
  match s with
  | EmptyString => Some acc
  | String c s' =>
      match digit c with
      | Some d => decimal (10 * acc + d) s'
      | None => None
      end
  end.

Definition byte_number (name : string) : option Z :=
  if String.prefix "data_" name
  then decimal 0 (substring 5 (String.length name - 5) name)
  else None.

Definition is_data_word (u : union_decl) : bool :=
  forallb (fun m => match byte_number (m_name m) with
                    | Some _ => true
                    | None => false
                    end) (s_little u).

Definition data_overlays : list union_decl := filter is_data_word overlays.

(** Offset of the word that holds payload byte [n] when the payload is laid
    out without gaps, four bytes a word, from [base] on. *)
Definition payload_word_offset (base n : Z) : Z := base + 4 * ((n - 1) / 4).

(** The word put together again arithmetically: every member's value times
    the weight of its lowest bit, summed up. *)
Definition recompose (ly : list field) (w : Z) : Z :=
  fold_right (fun f acc => get_field f w * 2 ^ f_lsb f + acc) 0 ly.

(** All the masks of a layout in one word. *)
Definition all_masks (ly : list field) : Z :=
  fold_right (fun f acc => Z.lor (field_mask f) acc) 0 ly.

(** ** The timestamp of a frame *)

(** Modelled from the spec: the lower 32 bits of the 64-bit timestamp of a
    frame, which the timestamp-low word holds.  The header only declares
    the two overlays; the code that splits the timestamp is in the driver,
    outside this file. *)
Definition timestamp_lower (ts : Z) : Z := Z.land ts (Z.ones u32_bits).

(** Modelled from the spec: the upper 32 bits of the 64-bit timestamp of a
    frame, which the timestamp-high word holds; the code that splits the
    timestamp is in the driver, outside this file. *)
Definition timestamp_upper (ts : Z) : Z :=
  Z.land (Z.shiftr ts u32_bits) (Z.ones u32_bits).

(** Modelled from the spec: the timestamp that has these lower and upper 32
    bits; the code that joins the two words is in the driver, outside this
    file. *)
Definition timestamp_join (lower upper : Z) : Z :=
  Z.lor (Z.shiftl upper u32_bits) lower.

(** Modelled from the spec: storing a timestamp in the two timestamp words
    (low word, high word) of a frame, through the one member of each
    overlay; the driver routine that does it is outside this file. *)
Definition write_timestamp (e : bitfield_endian) (ts : Z) (words : Z * Z)
  : option (Z * Z) :=
  match
    write e ctu_can_fd_timestamp_l_w "time_stamp_31_0"
      (timestamp_lower ts) (fst words),
    write e ctu_can_fd_timestamp_u_w "timestamp_l_w"
      (timestamp_upper ts) (snd words)
  with
  | Some l, Some h => Some (l, h)
  | _, _ => None
  end.

(** Modelled from the spec: the timestamp read from the two timestamp words
    (low word, high word) of a frame, through the one member of each
    overlay; the driver routine that does it is outside this file. *)
Definition read_timestamp (e : bitfield_endian) (words : Z * Z) : option Z :=
  match
    read e ctu_can_fd_timestamp_l_w "time_stamp_31_0" (fst words),
    read e ctu_can_fd_timestamp_u_w "timestamp_l_w" (snd words)
  with
  | Some l, Some h => Some (timestamp_join l h)
  | _, _ => None
  end.

(** * Properties *)

(** ** What the header declares *)

Ltac each_overlay H :=
  unfold overlays in H; simpl in H;
  repeat (destruct H as [<- | H]); try contradiction.

Ltac each_data_overlay H :=
  unfold data_overlays in H; simpl in H;
  repeat (destruct H as [<- | H]); try contradiction.

Lemma overlays_tags :
  map union_tag overlays =
  [ "ctu_can_fd_frame_form_w"; "ctu_can_fd_identifier_w";
    "ctu_can_fd_timestamp_l_w"; "ctu_can_fd_timestamp_u_w";
    "ctu_can_fd_data_1_4_w"; "ctu_can_fd_data_5_8_w";
    "ctu_can_fd_data_61_64_w" ].
Proof. reflexivity. Qed.

Lemma total_width_overlays (u : union_decl) (e : bitfield_endian) :
  In u overlays -> total_width (members e u) = u32_bits.
Proof.
  intros H; each_overlay H; destruct e; reflexivity.
Qed.

Lemma big_is_reversed_little (u : union_decl) :
  In u overlays -> s_big u = rev (s_little u).
Proof.
  intros H; each_overlay H; reflexivity.
Qed.

Lemma member_widths_positive (u : union_decl) (e : bitfield_endian) :
  In u overlays -> Forall (fun m => 0 < m_width m) (members e u).
Proof.
  intros H; each_overlay H; destruct e; simpl;
    repeat constructor.
Qed.

(** ** Bits of the two views *)

Lemma uint32_high_bits (w i : Z) :
  uint32 w -> u32_bits <= i -> Z.testbit w i = false.
Proof.
  unfold uint32, u32_bits. intros Hw Hi.
  destruct (Z.eq_dec w 0) as [->|Hnz]; [apply Z.bits_0|].
  apply Z.bits_above_log2; [lia|].
  apply Z.log2_lt_pow2; [lia|].
  assert (2 ^ 32 <= 2 ^ i) by (apply Z.pow_le_mono_r; lia).
  lia.
Qed.

Section FieldAccess.

Variable f : field.
Hypothesis lsb_nonneg : 0 <= f_lsb f.
Hypothesis width_nonneg : 0 <= f_width f.

Lemma field_mask_spec (i : Z) :
  0 <= i -> Z.testbit (field_mask f) i = covers f i.
Proof.
  intros Hi. unfold field_mask, covers.
  rewrite Z.shiftl_spec by assumption.
  rewrite Z.testbit_ones by assumption.
  destruct (Z.leb_spec 0 (i - f_lsb f)), (Z.leb_spec (f_lsb f) i),
    (Z.ltb_spec (i - f_lsb f) (f_width f)),
    (Z.ltb_spec i (f_lsb f + f_width f)); simpl; try reflexivity; lia.
Qed.

Lemma get_field_spec (w j : Z) :
  0 <= j ->
  Z.testbit (get_field f w) j = (j <? f_width f) && Z.testbit w (j + f_lsb f).
Proof.
  intros Hj. unfold get_field.
  rewrite Z.land_spec, Z.shiftr_spec, Z.testbit_ones_nonneg by assumption.
  apply andb_comm.
Qed.

Lemma set_field_spec (v w i : Z) :
  0 <= i ->
  Z.testbit (set_field f v w) i =
  if covers f i then Z.testbit v (i - f_lsb f) else Z.testbit w i.
Proof.
  intros Hi. unfold set_field.
  rewrite Z.lor_spec, Z.land_spec, Z.lnot_spec, field_mask_spec by assumption.
  rewrite Z.shiftl_spec, Z.land_spec by assumption.
  unfold covers.
  destruct (Z.leb_spec (f_lsb f) i); simpl.
  - rewrite Z.testbit_ones_nonneg by lia.
    replace (i - f_lsb f <? f_width f) with (i <? f_lsb f + f_width f)
      by (destruct (Z.ltb_spec i (f_lsb f + f_width f)),
            (Z.ltb_spec (i - f_lsb f) (f_width f)); try reflexivity; lia).
    destruct (i <? f_lsb f + f_width f); simpl.
    + rewrite andb_false_r, andb_true_r. reflexivity.
    + rewrite andb_true_r, andb_false_r, orb_false_r. reflexivity.
  - rewrite (Z.testbit_neg_r v) by lia.
    rewrite andb_true_r, orb_false_r. reflexivity.
Qed.

(** Reading a member back gives the value that was stored, truncated to
    the width of the member. *)
Lemma get_set_same (v w : Z) :
  get_field f (set_field f v w) = v mod 2 ^ f_width f.
Proof.
  apply Z.bits_inj'. intros j Hj.
  rewrite get_field_spec, set_field_spec by lia.
  rewrite Z.testbit_mod_pow2 by assumption.
  unfold covers.
  destruct (Z.ltb_spec j (f_width f)); simpl; [|reflexivity].
  destruct (Z.leb_spec (f_lsb f) (j + f_lsb f)); [|lia].
  destruct (Z.ltb_spec (j + f_lsb f) (f_lsb f + f_width f)); [|lia].
  simpl. f_equal. lia.
Qed.

Lemma get_field_range (w : Z) : 0 <= get_field f w < 2 ^ f_width f.
Proof.
  unfold get_field. rewrite Z.land_ones by assumption.
  apply Z.mod_pos_bound. apply Z.pow_pos_nonneg; lia.
Qed.

(** Storing all ones sets exactly the bits of the mask. *)
Lemma set_field_max (w : Z) :
  set_field f (field_max f) w = Z.lor w (field_mask f).
Proof.
  apply Z.bits_inj'. intros i Hi.
  rewrite set_field_spec, Z.lor_spec, field_mask_spec by assumption.
  unfold field_max.
  case_eq (covers f i); intros Hc.
  - rewrite orb_true_r. unfold covers in Hc.
    apply andb_prop in Hc. destruct Hc as [Hl Hh].
    apply Z.leb_le in Hl. apply Z.ltb_lt in Hh.
    rewrite Z.testbit_ones_nonneg by lia.
    apply Z.ltb_lt. lia.
  - rewrite orb_false_r. reflexivity.
Qed.

Lemma field_mask_value :
  field_mask f = (2 ^ f_width f - 1) * 2 ^ f_lsb f.
Proof.
  unfold field_mask.
  rewrite Z.shiftl_mul_pow2 by assumption.
  rewrite Z.ones_equiv. reflexivity.
Qed.

Hypothesis fits : f_lsb f + f_width f <= u32_bits.

(** The raw word stays a 32-bit word. *)
Lemma set_field_uint32 (v w : Z) : uint32 w -> uint32 (set_field f v w).
Proof.
  intros Hw. unfold uint32 in *.
  assert (E : set_field f v w = set_field f v w mod 2 ^ u32_bits).
  { apply Z.bits_inj'. intros i Hi.
    rewrite Z.testbit_mod_pow2 by (unfold u32_bits; lia).
    destruct (Z.ltb_spec i u32_bits); simpl; [reflexivity|].
    rewrite set_field_spec by assumption.
    unfold covers.
    destruct (Z.ltb_spec i (f_lsb f + f_width f)); [lia|].
    rewrite andb_false_r.
    apply uint32_high_bits; assumption. }
  rewrite E. apply Z.mod_pos_bound. unfold u32_bits. lia.
Qed.

End FieldAccess.

(** A write leaves every bit outside the member alone. *)
Lemma set_field_frame (f : field) (v w i : Z) :
  0 <= f_lsb f -> 0 <= f_width f -> 0 <= i ->
  covers f i = false ->
  Z.testbit (set_field f v w) i = Z.testbit w i.
Proof.
  intros Hl Hw Hi Hc. rewrite set_field_spec by assumption.
  rewrite Hc. reflexivity.
Qed.

(** A write leaves every member that shares no bit with it alone. *)
Lemma get_set_other (f g : field) (v w : Z) :
  0 <= f_lsb f -> 0 <= f_width f -> 0 <= f_lsb g -> 0 <= f_width g ->
  disjoint f g ->
  get_field g (set_field f v w) = get_field g w.
Proof.
  intros Hfl Hfw Hgl Hgw Hd.
  apply Z.bits_inj'. intros j Hj.
  rewrite !get_field_spec by assumption.
  destruct (Z.ltb_spec j (f_width g)); simpl; [|reflexivity].
  apply set_field_frame; try lia.
  unfold covers. unfold disjoint in Hd.
  destruct (Z.leb_spec (f_lsb f) (j + f_lsb g)),
    (Z.ltb_spec (j + f_lsb g) (f_lsb f + f_width f)); simpl;
    try reflexivity; lia.
Qed.

(** A full-width member is the raw word. *)
Lemma get_field_whole (f : field) (w : Z) :
  f_lsb f = 0 -> f_width f = u32_bits -> uint32 w -> get_field f w = w.
Proof.
  intros Hl Hw Hu. unfold get_field. rewrite Hl, Hw, Z.shiftr_0_r.
  rewrite Z.land_ones by (unfold u32_bits; lia).
  apply Z.mod_small. exact Hu.
Qed.

Lemma set_field_whole (f : field) (v w : Z) :
  f_lsb f = 0 -> f_width f = u32_bits -> uint32 w ->
  set_field f v w = v mod 2 ^ u32_bits.
Proof.
  intros Hl Hw Hu. apply Z.bits_inj'. intros i Hi.
  rewrite set_field_spec by (rewrite ?Hl, ?Hw; unfold u32_bits; lia).
  rewrite Z.testbit_mod_pow2 by (unfold u32_bits; lia).
  unfold covers. rewrite Hl, Hw, Z.sub_0_r, Z.add_0_l.
  destruct (Z.leb_spec 0 i); [|lia].
  destruct (Z.ltb_spec i u32_bits); simpl; [reflexivity|].
  apply uint32_high_bits; assumption.
Qed.

(** ** Placement of the members *)

Lemma total_width_nonneg (ms : list member) :
  Forall (fun m => 0 < m_width m) ms -> 0 <= total_width ms.
Proof.
  induction 1 as [|m ms Hm _ IH]; simpl; lia.
Qed.

Lemma total_width_app (a b : list member) :
  total_width (a ++ b) = total_width a + total_width b.
Proof.
  induction a as [|m a IH]; simpl; [reflexivity | rewrite IH; lia].
Qed.

Lemma total_width_rev (ms : list member) :
  total_width (rev ms) = total_width ms.
Proof.
  induction ms as [|m ms IH]; simpl; [reflexivity|].
  rewrite total_width_app, IH. simpl. lia.
Qed.

Lemma alloc_up_names (ms : list member) (pos : Z) :
  map f_name (alloc_up pos ms) = map m_name ms.
Proof.
  revert pos. induction ms as [|m ms IH]; intros pos; simpl;
    [reflexivity | rewrite IH; reflexivity].
Qed.

Lemma alloc_down_names (ms : list member) (top : Z) :
  map f_name (alloc_down top ms) = map m_name ms.
Proof.
  revert top. induction ms as [|m ms IH]; intros top; simpl;
    [reflexivity | rewrite IH; reflexivity].
Qed.

Lemma alloc_up_inside (ms : list member) (pos : Z) (f : field) :
  Forall (fun m => 0 < m_width m) ms ->
  In f (alloc_up pos ms) ->
  pos <= f_lsb f /\ 0 < f_width f /\
  f_lsb f + f_width f <= pos + total_width ms.
Proof.
  intros Hpos. revert pos.
  induction Hpos as [|m ms Hm Hms IH]; intros pos Hin; simpl in Hin.
  - contradiction.
  - pose proof (total_width_nonneg ms Hms) as Hnn.
    destruct Hin as [<- | Hin]; simpl.
    + lia.
    + apply IH in Hin. lia.
Qed.

Lemma alloc_down_inside (ms : list member) (top : Z) (f : field) :
  Forall (fun m => 0 < m_width m) ms ->
  In f (alloc_down top ms) ->
  top - total_width ms <= f_lsb f /\ 0 < f_width f /\
  f_lsb f + f_width f <= top.
Proof.
  intros Hpos. revert top.
  induction Hpos as [|m ms Hm Hms IH]; intros top Hin; simpl in Hin.
  - contradiction.
  - pose proof (total_width_nonneg ms Hms) as Hnn.
    destruct Hin as [<- | Hin]; simpl.
    + lia.
    + apply IH in Hin. lia.
Qed.

Lemma alloc_up_separate (ms : list member) (pos : Z) :
  Forall (fun m => 0 < m_width m) ms ->
  ForallOrdPairs disjoint (alloc_up pos ms).
Proof.
  intros Hpos. revert pos.
  induction Hpos as [|m ms Hm Hms IH]; intros pos; simpl; constructor.
  - apply Forall_forall. intros g Hg.
    apply alloc_up_inside in Hg; [|assumption].
    unfold disjoint; simpl. lia.
  - apply IH.
Qed.

Lemma alloc_down_separate (ms : list member) (top : Z) :
  Forall (fun m => 0 < m_width m) ms ->
  ForallOrdPairs disjoint (alloc_down top ms).
Proof.
  intros Hpos. revert top.
  induction Hpos as [|m ms Hm Hms IH]; intros top; simpl; constructor.
  - apply Forall_forall. intros g Hg.
    apply alloc_down_inside in Hg; [|assumption].
    unfold disjoint; simpl. lia.
  - apply IH.
Qed.

Lemma alloc_up_covers (ms : list member) (pos i : Z) :
  pos <= i < pos + total_width ms ->
  existsb (fun f => covers f i) (alloc_up pos ms) = true.
Proof.
  revert pos. induction ms as [|m ms IH]; intros pos Hi; simpl in *.
  - lia.
  - unfold covers at 1; simpl.
    destruct (Z.ltb_spec i (pos + m_width m)).
    + destruct (Z.leb_spec pos i); [reflexivity | lia].
    + rewrite andb_false_r. simpl. apply IH. lia.
Qed.

Lemma alloc_down_covers (ms : list member) (top i : Z) :
  top - total_width ms <= i < top ->
  existsb (fun f => covers f i) (alloc_down top ms) = true.
Proof.
  revert top. induction ms as [|m ms IH]; intros top Hi; simpl in *.
  - lia.
  - unfold covers at 1; simpl.
    destruct (Z.leb_spec (top - m_width m) i).
    + destruct (Z.ltb_spec i (top - m_width m + m_width m));
        [reflexivity | lia].
    + simpl. apply IH. lia.
Qed.

Lemma alloc_down_app (a b : list member) (top : Z) :
  alloc_down top (a ++ b) =
  alloc_down top a ++ alloc_down (top - total_width a) b.
Proof.
  revert top. induction a as [|m a IH]; intros top; simpl.
  - f_equal. lia.
  - rewrite IH. do 3 f_equal. lia.
Qed.

(** Filling from the top in reversed order puts every member where filling
    from the bottom in declaration order puts it. *)
Lemma alloc_down_rev (ms : list member) (pos : Z) :
  alloc_down (pos + total_width ms) (rev ms) = rev (alloc_up pos ms).
Proof.
  revert pos. induction ms as [|m ms IH]; intros pos; simpl.
  - reflexivity.
  - rewrite alloc_down_app. simpl.
    replace (pos + (m_width m + total_width ms))
      with ((pos + m_width m) + total_width ms) by lia.
    rewrite IH, total_width_rev. do 3 f_equal. lia.
Qed.

(** *** Looking a member up *)

Lemma find_field_some (n : string) (ly : list field) (f : field) :
  find_field n ly = Some f -> In f ly /\ f_name f = n.
Proof.
  unfold find_field. intros H. apply find_some in H.
  destruct H as [Hin He]. split; [assumption|].
  apply String.eqb_eq. assumption.
Qed.

Lemma find_field_none (n : string) (ly : list field) :
  find_field n ly = None -> ~ In n (map f_name ly).
Proof.
  unfold find_field. intros H Hin.
  apply in_map_iff in Hin. destruct Hin as [f [Hn Hf]].
  pose proof (find_none _ _ H f Hf) as E. simpl in E.
  rewrite Hn, String.eqb_refl in E. discriminate.
Qed.

Lemma find_field_in (ly : list field) (f : field) :
  NoDup (map f_name ly) -> In f ly -> find_field (f_name f) ly = Some f.
Proof.
  unfold find_field.
  induction ly as [|g ly IH]; simpl; intros Hnd Hin; [contradiction|].
  inversion Hnd as [|? ? Hnotin Hnd']; subst.
  destruct Hin as [-> | Hin].
  - rewrite String.eqb_refl. reflexivity.
  - destruct (String.eqb_spec (f_name g) (f_name f)) as [E|_].
    + exfalso. apply Hnotin. rewrite E. apply in_map. assumption.
    + apply IH; assumption.
Qed.

Lemma find_field_rev (n : string) (ly : list field) :
  NoDup (map f_name ly) -> find_field n (rev ly) = find_field n ly.
Proof.
  intros Hnd.
  destruct (find_field n ly) as [f|] eqn:E.
  - apply find_field_some in E. destruct E as [Hin <-].
    apply find_field_in.
    + rewrite map_rev. apply NoDup_rev. assumption.
    + apply in_rev. rewrite rev_involutive. assumption.
  - destruct (find_field n (rev ly)) as [g|] eqn:E'; [|reflexivity].
    apply find_field_some in E'. destruct E' as [Hin <-].
    apply find_field_none in E. exfalso. apply E.
    apply in_map. apply in_rev. assumption.
Qed.

(** ** The layouts of the seven overlays *)

Lemma layout_names (u : union_decl) (e : bitfield_endian) :
  map f_name (layout e u) = map m_name (members e u).
Proof.
  destruct e; simpl; [apply alloc_up_names | apply alloc_down_names].
Qed.

Lemma layout_names_nodup (u : union_decl) (e : bitfield_endian) :
  In u overlays -> NoDup (map f_name (layout e u)).
Proof.
  intros H. rewrite layout_names.
  each_overlay H; destruct e; simpl;
    repeat (constructor; [simpl; intuition discriminate|]); constructor.
Qed.

Lemma layout_in_unit (u : union_decl) (e : bitfield_endian) (f : field) :
  In u overlays -> In f (layout e u) -> in_unit f.
Proof.
  intros Hu Hf. unfold in_unit.
  pose proof (member_widths_positive u e Hu) as Hpos.
  pose proof (total_width_overlays u e Hu) as Htot.
  destruct e; simpl in *.
  - apply alloc_up_inside in Hf; [lia | assumption].
  - apply alloc_down_inside in Hf; [lia | assumption].
Qed.

Lemma layout_separate (u : union_decl) (e : bitfield_endian) :
  In u overlays -> ForallOrdPairs disjoint (layout e u).
Proof.
  intros Hu. pose proof (member_widths_positive u e Hu) as Hpos.
  destruct e; simpl in *.
  - apply alloc_up_separate. assumption.
  - apply alloc_down_separate. assumption.
Qed.

Lemma layout_covers (u : union_decl) (e : bitfield_endian) (i : Z) :
  In u overlays -> 0 <= i < u32_bits ->
  existsb (fun f => covers f i) (layout e u) = true.
Proof.
  intros Hu Hi. pose proof (total_width_overlays u e Hu) as Htot.
  destruct e; simpl in *.
  - apply alloc_up_covers. lia.
  - apply alloc_down_covers. lia.
Qed.

(** Both variants of a struct give every member the same bits. *)
Lemma layout_big_rev (u : union_decl) :
  In u overlays ->
  layout BIG_ENDIAN_BITFIELD u = rev (layout LITTLE_ENDIAN_BITFIELD u).
Proof.
  intros Hu. simpl.
  rewrite (big_is_reversed_little u Hu).
  rewrite <- (total_width_overlays u LITTLE_ENDIAN_BITFIELD Hu).
  apply (alloc_down_rev (s_little u) 0).
Qed.

Lemma find_field_endian (u : union_decl) (n : string) (e : bitfield_endian) :
  In u overlays ->
  find_field n (layout e u) = find_field n (layout LITTLE_ENDIAN_BITFIELD u).
Proof.
  intros Hu. destruct e; [reflexivity|].
  rewrite (layout_big_rev u Hu). apply find_field_rev.
  apply layout_names_nodup. assumption.
Qed.

Lemma separate_in (ly : list field) (f g : field) :
  ForallOrdPairs disjoint ly -> In f ly -> In g ly -> f <> g -> disjoint f g.
Proof.
  intros Hs Hf Hg Hne.
  destruct (ForallOrdPairs_In Hs f g Hf Hg) as [E | [D | D]].
  - contradiction.
  - assumption.
  - unfold disjoint in *. lia.
Qed.

(** *** Access by name *)

Lemma write_declared (u : union_decl) (e : bitfield_endian) (f : field)
  (v w : Z) :
  In u overlays -> In f (layout e u) ->
  write e u (f_name f) v w = Some (set_field f v w).
Proof.
  intros Hu Hf. unfold write.
  rewrite find_field_in by (auto using layout_names_nodup). reflexivity.
Qed.

Lemma read_declared (u : union_decl) (e : bitfield_endian) (f : field)
  (w : Z) :
  In u overlays -> In f (layout e u) ->
  read e u (f_name f) w = Some (get_field f w).
Proof.
  intros Hu Hf. unfold read.
  rewrite find_field_in by (auto using layout_names_nodup). reflexivity.
Qed.

Lemma read_endian (u : union_decl) (n : string) (e : bitfield_endian) (w : Z) :
  In u overlays -> read e u n w = read LITTLE_ENDIAN_BITFIELD u n w.
Proof.
  intros Hu. unfold read. rewrite (find_field_endian u n e Hu). reflexivity.
Qed.

Lemma write_endian (u : union_decl) (n : string) (e : bitfield_endian)
  (v w : Z) :
  In u overlays -> write e u n v w = write LITTLE_ENDIAN_BITFIELD u n v w.
Proof.
  intros Hu. unfold write. rewrite (find_field_endian u n e Hu). reflexivity.
Qed.

(** *** Decoding and encoding *)

(** Assigning to some members the values they have in [w] copies the bits
    of [w] under these members and keeps the others. *)
Lemma refill_bits (fs : list field) (w w0 i : Z) :
  Forall (fun f => 0 <= f_lsb f /\ 0 <= f_width f) fs -> 0 <= i ->
  Z.testbit
    (fold_left (fun acc f => set_field f (get_field f w) acc) fs w0) i =
  if existsb (fun f => covers f i) fs then Z.testbit w i else Z.testbit w0 i.
Proof.
  intros Hwf Hi. revert w0.
  induction Hwf as [|f fs [Hl Hw] _ IH]; intros w0; simpl; [reflexivity|].
  rewrite IH.
  destruct (existsb (fun f => covers f i) fs).
  - rewrite orb_true_r. reflexivity.
  - rewrite orb_false_r, set_field_spec by assumption.
    case_eq (covers f i); intros Hc; [|reflexivity].
    unfold covers in Hc. apply andb_prop in Hc. destruct Hc as [H1 H2].
    apply Z.leb_le in H1. apply Z.ltb_lt in H2.
    rewrite get_field_spec by lia.
    replace (i - f_lsb f + f_lsb f) with i by lia.
    destruct (Z.ltb_spec (i - f_lsb f) (f_width f)); [reflexivity | lia].
Qed.

Lemma encode_from_decode (u : union_decl) (e : bitfield_endian)
  (fs : list field) (w w0 : Z) :
  In u overlays -> incl fs (layout e u) ->
  encode_from e u w0 (map (fun f => (f_name f, get_field f w)) fs) =
  Some (fold_left (fun acc f => set_field f (get_field f w) acc) fs w0).
Proof.
  intros Hu. revert w0. unfold encode_from.
  induction fs as [|f fs IH]; intros w0 Hincl; simpl; [reflexivity|].
  rewrite write_declared by (auto with datatypes).
  apply IH. intros g Hg. apply Hincl. right. assumption.
Qed.

Lemma encode_decode (u : union_decl) (e : bitfield_endian) (w : Z) :
  In u overlays -> uint32 w -> encode e u (decode e u w) = Some w.
Proof.
  intros Hu Hw. unfold encode, decode.
  rewrite encode_from_decode by (auto using incl_refl).
  f_equal. apply Z.bits_inj'. intros i Hi.
  rewrite refill_bits; [|
    apply Forall_forall; intros f Hf;
    destruct (layout_in_unit u e f Hu Hf) as (? & ? & ?); lia
    | assumption].
  destruct (Z.ltb_spec i u32_bits).
  - rewrite layout_covers by (auto; lia). reflexivity.
  - rewrite Z.bits_0, uint32_high_bits by assumption.
    destruct (existsb _ _); reflexivity.
Qed.

(** ** The words of the frame *)

(** *** Encoding and decoding again *)

Lemma encode_from_store (u : union_decl) (e : bitfield_endian)
  (fvs : list (field * Z)) (w0 : Z) :
  In u overlays -> incl (map fst fvs) (layout e u) ->
  encode_from e u w0 (map (fun fv => (f_name (fst fv), snd fv)) fvs) =
  Some (store fvs w0).
Proof.
  intros Hu. revert w0. unfold encode_from, store.
  induction fvs as [|[f v] fvs IH]; intros w0 Hincl; simpl; [reflexivity|].
  rewrite write_declared by (try assumption; apply Hincl; left; reflexivity).
  apply IH. intros g Hg. apply Hincl. right. assumption.
Qed.

Lemma store_uint32 (fvs : list (field * Z)) (w0 : Z) :
  Forall in_unit (map fst fvs) -> uint32 w0 -> uint32 (store fvs w0).
Proof.
  unfold store. revert w0.
  induction fvs as [|[f v] fvs IH]; intros w0 Hwf Hw; simpl; [assumption|].
  inversion Hwf as [|? ? (Hl & Hwd & Hfit) Hwf']; subst.
  apply IH; [assumption|].
  apply set_field_uint32; simpl in *; (assumption || lia).
Qed.

(** Assignments to members that share no bit with [g] leave [g] alone. *)
Lemma get_store_other (fvs : list (field * Z)) (g : field) (w0 : Z) :
  Forall in_unit (map fst fvs) -> in_unit g ->
  Forall (fun f => disjoint f g) (map fst fvs) ->
  get_field g (store fvs w0) = get_field g w0.
Proof.
  unfold store. intros Hwf (Hgl & Hgw & _). revert w0.
  induction fvs as [|[f v] fvs IH]; intros w0 Hd; simpl; [reflexivity|].
  inversion Hwf as [|? ? (Hl & Hwd & _) Hwf']; subst.
  inversion Hd as [|? ? Hfg Hd']; subst.
  rewrite IH by assumption.
  apply get_set_other; simpl in *; (assumption || lia).
Qed.

(** After assignments to members that share no bits, each of them holds the
    value assigned to it. *)
Lemma get_store_in (fvs : list (field * Z)) (g : field) (v w0 : Z) :
  Forall in_unit (map fst fvs) ->
  ForallOrdPairs disjoint (map fst fvs) ->
  In (g, v) fvs ->
  get_field g (store fvs w0) = v mod 2 ^ f_width g.
Proof.
  revert w0.
  induction fvs as [|[f x] fvs IH]; intros w0 Hwf Hsep Hin; simpl in *;
    [contradiction|].
  inversion Hwf as [|? ? Hf Hwf']; subst.
  inversion Hsep as [|? ? Hfirst Hsep']; subst.
  destruct Hin as [E | Hin].
  - inversion E; subst.
    change (get_field g (store fvs (set_field g v w0)) = v mod 2 ^ f_width g).
    rewrite get_store_other; try assumption.
    + destruct Hf as (? & ? & _). apply get_set_same; lia.
    + apply Forall_forall. intros h Hh.
      pose proof (proj1 (Forall_forall _ _) Hfirst h Hh) as D.
      unfold disjoint in *. lia.
  - apply (IH (set_field f x w0)); assumption.
Qed.

Lemma decode_encode (u : union_decl) (e : bitfield_endian)
  (s : list (string * Z)) :
  In u overlays ->
  Forall2 (fun f nv => fst nv = f_name f /\ 0 <= snd nv < 2 ^ f_width f)
    (layout e u) s ->
  exists w, encode e u s = Some w /\ uint32 w /\ decode e u w = s.
Proof.
  intros Hu Hs.
  set (fvs := combine (layout e u) (map snd s)).
  assert (Hlen : List.length (map snd s) = List.length (layout e u)).
  { rewrite length_map. symmetry. eapply Forall2_length. eassumption. }
  assert (Hfst : map fst fvs = layout e u).
  { unfold fvs. clear -Hlen. revert Hlen.
    generalize (map snd s) as vs. generalize (layout e u) as ly.
    induction ly as [|f ly IH]; intros [|v vs] Hlen; simpl in *;
      try discriminate; [reflexivity|].
    f_equal. apply IH. congruence. }
  assert (Hs' : s = map (fun fv => (f_name (fst fv), snd fv)) fvs).
  { unfold fvs. clear -Hs.
    induction Hs as [|f [n v] ly s [Hn _] _ IH]; simpl in *; [reflexivity|].
    subst n. f_equal. assumption. }
  assert (Hunit : Forall in_unit (map fst fvs)).
  { rewrite Hfst. apply Forall_forall. intros f Hf.
    eapply layout_in_unit; eassumption. }
  exists (store fvs 0).
  split; [|split].
  - unfold encode. rewrite Hs'. apply encode_from_store; [assumption|].
    rewrite Hfst. apply incl_refl.
  - apply store_uint32; [assumption|]. unfold uint32, u32_bits. lia.
  - assert (Hget : forall f v, In (f, v) fvs ->
              0 <= v < 2 ^ f_width f ->
              get_field f (store fvs 0) = v).
    { intros f v Hin Hv.
      rewrite (get_store_in fvs f v 0); try assumption.
      - apply Z.mod_small. assumption.
      - rewrite Hfst. apply layout_separate. assumption. }
    unfold decode. generalize (store fvs 0) Hget. intros w Hw.
    clear Hget Hunit Hs' Hfst Hlen. unfold fvs in Hw. clear fvs.
    induction Hs as [|f [n v] ly s [Hn Hv] _ IH]; simpl in *; [reflexivity|].
    subst n. f_equal.
    + f_equal. apply Hw; [left; reflexivity | assumption].
    + apply IH. intros g x Hin Hx. apply Hw; [right|]; assumption.
Qed.

(** The raw word read back after each member in turn was set to all ones in
    a cleared union, for all seven overlays. *)
Lemma set_max_patterns (e : bitfield_endian) :
  map (fun u => map (fun m => (m_name m, set_max e u (m_name m))) (s_little u))
    overlays =
  [ [ ("dlc", Some 0x0000000f); ("reserved_4", Some 0x00000010);
      ("rtr", Some 0x00000020); ("ide", Some 0x00000040);
      ("fdf", Some 0x00000080); ("tbf", Some 0x00000100);
      ("brs", Some 0x00000200); ("esi_rsv", Some 0x00000400);
      ("rwcnt", Some 0x0000f800); ("reserved_31_16", Some 0xffff0000) ];
    [ ("identifier_ext", Some 0x0003ffff);
      ("identifier_base", Some 0x1ffc0000);
      ("reserved_31_29", Some 0xe0000000) ];
    [ ("time_stamp_31_0", Some 0xffffffff) ];
    [ ("timestamp_l_w", Some 0xffffffff) ];
    [ ("data_1", Some 0x000000ff); ("data_2", Some 0x0000ff00);
      ("data_3", Some 0x00ff0000); ("data_4", Some 0xff000000) ];
    [ ("data_5", Some 0x000000ff); ("data_6", Some 0x0000ff00);
      ("data_7", Some 0x00ff0000); ("data_8", Some 0xff000000) ];
    [ ("data_61", Some 0x000000ff); ("data_62", Some 0x0000ff00);
      ("data_63", Some 0x00ff0000); ("data_64", Some 0xff000000) ] ].
Proof. destruct e; reflexivity. Qed.

Lemma set_max_declared (u : union_decl) (e : bitfield_endian) (f : field) :
  In u overlays -> In f (layout e u) ->
  set_max e u (f_name f) = Some (field_mask f).
Proof.
  intros Hu Hf. unfold set_max.
  rewrite find_field_in by (auto using layout_names_nodup).
  destruct (layout_in_unit u e f Hu Hf) as (Hl & Hw & _).
  rewrite set_field_max by lia. reflexivity.
Qed.

(** C1: the memory-map enumeration has exactly seven enumerators; they give
    the frame-form word the offset 0x0, the identifier word 0x4, the two
    timestamp words 0x8 and 0xc, and the three data words 0x10, 0x14 and
    0x4c. *)
Theorem frame_format_offsets :
  List.length (enum_body ctu_can_fd_can_frame_format) = 7%nat /\
  NoDup (map e_name (enum_body ctu_can_fd_can_frame_format)) /\
  enum_lookup "CTU_CAN_FD_FRAME_FORM_W" ctu_can_fd_can_frame_format = Some 0x0 /\
  enum_lookup "CTU_CAN_FD_IDENTIFIER_W" ctu_can_fd_can_frame_format = Some 0x4 /\
  enum_lookup "CTU_CAN_FD_TIMESTAMP_L_W" ctu_can_fd_can_frame_format = Some 0x8 /\
  enum_lookup "CTU_CAN_FD_TIMESTAMP_U_W" ctu_can_fd_can_frame_format = Some 0xc /\
  enum_lookup "CTU_CAN_FD_DATA_1_4_W" ctu_can_fd_can_frame_format = Some 0x10 /\
  enum_lookup "CTU_CAN_FD_DATA_5_8_W" ctu_can_fd_can_frame_format = Some 0x14 /\
  enum_lookup "CTU_CAN_FD_DATA_61_64_W" ctu_can_fd_can_frame_format = Some 0x4c /\
  map offset_of overlays =
    [Some 0x0; Some 0x4; Some 0x8; Some 0xc; Some 0x10; Some 0x14; Some 0x4c].
Proof.
  split; [reflexivity|].
  split.
  - simpl. repeat constructor; simpl; intuition discriminate.
  - repeat split; reflexivity.
Qed.

(** C2: there are seven overlay unions, and in each of them the widths of
    the bitfields of the little-endian branch, and those of the big-endian
    branch, add up to 32. *)
Theorem bitfield_widths_sum_to_32 :
  List.length overlays = 7%nat /\
  forall (u : union_decl) (e : bitfield_endian),
    In u overlays -> total_width (members e u) = 32.
Proof.
  split; [reflexivity | exact total_width_overlays].
Qed.

Lemma bitfield_widths_sum_to_32_witness :
  In ctu_can_fd_identifier_w overlays /\
  total_width (members BIG_ENDIAN_BITFIELD ctu_can_fd_identifier_w) = 32.
Proof.
  split.
  - simpl. tauto.
  - apply (proj2 bitfield_widths_sum_to_32). simpl. tauto.
Defined.

(** C3: in every overlay and under both bitfield variants the struct view
    and the raw word are the same 32 bits: every bit of the word is a bit of
    a member, decoding a word into its members and assigning them again to a
    cleared union gives the word back, every choice of fitting member values
    is the struct view of a 32-bit word, and setting one member to its
    largest value in a cleared union reads back as the ones of its width
    shifted to its position, the same word under both variants. *)
Theorem union_views_agree (u : union_decl) (e : bitfield_endian) (w : Z) :
  In u overlays -> uint32 w ->
  encode e u (decode e u w) = Some w /\
  (forall i, 0 <= i < 32 ->
     exists f, In f (layout e u) /\ covers f i = true /\
               Z.testbit (get_field f w) (i - f_lsb f) = Z.testbit w i) /\
  (forall s,
     Forall2 (fun f nv => fst nv = f_name f /\ 0 <= snd nv < 2 ^ f_width f)
       (layout e u) s ->
     exists w', encode e u s = Some w' /\ uint32 w' /\ decode e u w' = s) /\
  (forall f, In f (layout e u) ->
     field_max f = 2 ^ f_width f - 1 /\
     set_max e u (f_name f) = Some ((2 ^ f_width f - 1) * 2 ^ f_lsb f) /\
     set_max LITTLE_ENDIAN_BITFIELD u (f_name f) =
       set_max BIG_ENDIAN_BITFIELD u (f_name f) /\
     read e u (f_name f) ((2 ^ f_width f - 1) * 2 ^ f_lsb f) =
       Some (2 ^ f_width f - 1)).
Proof.
  intros Hu Hw. split; [apply encode_decode; assumption|]. split.
  - intros i Hi.
    pose proof (layout_covers u e i Hu Hi) as Hc.
    apply existsb_exists in Hc. destruct Hc as [f [Hf Hc]].
    exists f. split; [assumption|]. split; [assumption|].
    destruct (layout_in_unit u e f Hu Hf) as (Hl & Hwd & _).
    unfold covers in Hc. apply andb_prop in Hc. destruct Hc as [H1 H2].
    apply Z.leb_le in H1. apply Z.ltb_lt in H2.
    rewrite get_field_spec by lia.
    replace (i - f_lsb f + f_lsb f) with i by lia.
    destruct (Z.ltb_spec (i - f_lsb f) (f_width f)); [reflexivity | lia].
  - split; [intros s Hs; apply decode_encode; assumption|].
    intros f Hf.
    destruct (layout_in_unit u e f Hu Hf) as (Hl & Hwd & _).
    assert (Hm : field_mask f = (2 ^ f_width f - 1) * 2 ^ f_lsb f)
      by (apply field_mask_value; lia).
    assert (Hx : field_max f = 2 ^ f_width f - 1)
      by (unfold field_max; rewrite Z.ones_equiv; reflexivity).
    split; [assumption|]. split; [|split].
    + rewrite <- Hm. apply set_max_declared; assumption.
    + unfold set_max.
      rewrite (find_field_endian u (f_name f) BIG_ENDIAN_BITFIELD Hu).
      reflexivity.
    + rewrite read_declared by assumption. f_equal.
      rewrite <- Hm, <- Hx.
      replace (field_mask f) with (set_field f (field_max f) 0)
        by (rewrite set_field_max by lia; apply Z.lor_0_l).
      rewrite get_set_same by lia.
      apply Z.mod_small. rewrite Hx.
      assert (0 < 2 ^ f_width f) by (apply Z.pow_pos_nonneg; lia). lia.
Qed.

Lemma union_views_agree_witness :
  encode BIG_ENDIAN_BITFIELD ctu_can_fd_frame_form_w
    (decode BIG_ENDIAN_BITFIELD ctu_can_fd_frame_form_w 0x12345678) =
  Some 0x12345678.
Proof.
  apply (union_views_agree ctu_can_fd_frame_form_w BIG_ENDIAN_BITFIELD
           0x12345678).
  - simpl. tauto.
  - unfold uint32, u32_bits. lia.
Defined.

(** C4: with [__LITTLE_ENDIAN_BITFIELD] the frame-form word is, from bit 0
    upward, dlc (4 bits), one reserved bit, rtr, ide, fdf, tbf, brs and
    esi_rsv (1 bit each), rwcnt (5 bits) and 16 reserved bits; the other
    branch declares the same members with the same widths in reversed
    order. *)
Theorem frame_form_w_fields :
  map (fun f => (f_name f, f_lsb f, f_width f))
    (layout LITTLE_ENDIAN_BITFIELD ctu_can_fd_frame_form_w) =
  [ ("dlc", 0, 4); ("reserved_4", 4, 1); ("rtr", 5, 1); ("ide", 6, 1);
    ("fdf", 7, 1); ("tbf", 8, 1); ("brs", 9, 1); ("esi_rsv", 10, 1);
    ("rwcnt", 11, 5); ("reserved_31_16", 16, 16) ] /\
  members BIG_ENDIAN_BITFIELD ctu_can_fd_frame_form_w =
    rev (members LITTLE_ENDIAN_BITFIELD ctu_can_fd_frame_form_w) /\
  layout BIG_ENDIAN_BITFIELD ctu_can_fd_frame_form_w =
    rev (layout LITTLE_ENDIAN_BITFIELD ctu_can_fd_frame_form_w).
Proof. repeat split. Qed.

(** C5: with [__LITTLE_ENDIAN_BITFIELD] the identifier word is, from bit 0
    upward, identifier_ext (18 bits), identifier_base (11 bits) and 3
    reserved bits; the other branch declares the same members in reversed
    order. *)
Theorem identifier_w_fields :
  map (fun f => (f_name f, f_lsb f, f_width f))
    (layout LITTLE_ENDIAN_BITFIELD ctu_can_fd_identifier_w) =
  [ ("identifier_ext", 0, 18); ("identifier_base", 18, 11);
    ("reserved_31_29", 29, 3) ] /\
  members BIG_ENDIAN_BITFIELD ctu_can_fd_identifier_w =
    rev (members LITTLE_ENDIAN_BITFIELD ctu_can_fd_identifier_w) /\
  layout BIG_ENDIAN_BITFIELD ctu_can_fd_identifier_w =
    rev (layout LITTLE_ENDIAN_BITFIELD ctu_can_fd_identifier_w).
Proof. repeat split. Qed.

(** C6: the three data words (bytes 1-4, 5-8 and 61-64) each hold four
    members of 8 bits, which fill the word; with [__LITTLE_ENDIAN_BITFIELD]
    the byte with the lowest number is declared first and sits in bits 0-7,
    the next ones follow upward, and the other branch declares them in
    reversed order. *)
Theorem data_words_pack_four_bytes :
  map union_tag data_overlays =
    [ "ctu_can_fd_data_1_4_w"; "ctu_can_fd_data_5_8_w";
      "ctu_can_fd_data_61_64_w" ] /\
  forall u, In u data_overlays ->
    map m_width (members LITTLE_ENDIAN_BITFIELD u) = [8; 8; 8; 8] /\
    members BIG_ENDIAN_BITFIELD u = rev (members LITTLE_ENDIAN_BITFIELD u) /\
    (exists n,
       map (fun f => (byte_number (f_name f), f_lsb f))
         (layout LITTLE_ENDIAN_BITFIELD u) =
       [ (Some n, 0); (Some (n + 1), 8); (Some (n + 2), 16);
         (Some (n + 3), 24) ]) /\
    (forall e f, In f (layout e u) ->
       exists n, byte_number (f_name f) = Some n /\
                 f_width f = 8 /\ f_lsb f = 8 * ((n - 1) mod 4)).
Proof.
  split; [reflexivity|].
  intros u Hu.
  each_data_overlay Hu;
    (split; [reflexivity|]; split; [reflexivity|]; split;
     [first [exists 1; reflexivity | exists 5; reflexivity
            | exists 61; reflexivity]|];
     intros e f Hf; destruct e; simpl in Hf;
     repeat (destruct Hf as [<- | Hf]); try contradiction;
     eexists; repeat split; reflexivity).
Qed.

Lemma data_words_pack_four_bytes_witness :
  map m_width (members LITTLE_ENDIAN_BITFIELD ctu_can_fd_data_61_64_w) =
    [8; 8; 8; 8] /\
  members BIG_ENDIAN_BITFIELD ctu_can_fd_data_61_64_w =
    rev (members LITTLE_ENDIAN_BITFIELD ctu_can_fd_data_61_64_w).
Proof.
  assert (H : In ctu_can_fd_data_61_64_w data_overlays) by (simpl; tauto).
  destruct (proj2 data_words_pack_four_bytes _ H) as (H1 & H2 & _).
  split; assumption.
Defined.

(** The members that carry their bit positions in their names get exactly
    these bits, under both variants. *)
Lemma positions_in_member_names (e : bitfield_endian) :
  find_field "reserved_4" (layout e ctu_can_fd_frame_form_w) =
    Some (Field "reserved_4" 4 1) /\
  find_field "reserved_31_16" (layout e ctu_can_fd_frame_form_w) =
    Some (Field "reserved_31_16" 16 (31 - 16 + 1)) /\
  find_field "reserved_31_29" (layout e ctu_can_fd_identifier_w) =
    Some (Field "reserved_31_29" 29 (31 - 29 + 1)) /\
  find_field "time_stamp_31_0" (layout e ctu_can_fd_timestamp_l_w) =
    Some (Field "time_stamp_31_0" 0 (31 - 0 + 1)).
Proof. destruct e; repeat split. Qed.

Lemma timestamp_join_add (lower upper : Z) :
  uint32 lower -> 0 <= upper ->
  timestamp_join lower upper = lower + 2 ^ 32 * upper.
Proof.
  intros Hl Hu. unfold timestamp_join, u32_bits.
  assert (E : Z.land (Z.shiftl upper 32) lower = 0).
  { apply Z.bits_inj'. intros i Hi.
    rewrite Z.land_spec, Z.bits_0, Z.shiftl_spec by assumption.
    destruct (Z.ltb_spec i 32).
    - rewrite Z.testbit_neg_r by lia. reflexivity.
    - rewrite (uint32_high_bits lower i Hl) by (unfold u32_bits; lia).
      apply andb_false_r. }
  pose proof (Z.add_lor_land (Z.shiftl upper 32) lower) as A.
  rewrite E, Z.add_0_r in A. rewrite A.
  rewrite Z.shiftl_mul_pow2 by lia. lia.
Qed.

Lemma timestamp_halves (ts : Z) :
  0 <= ts < 2 ^ 64 ->
  timestamp_lower ts = ts mod 2 ^ 32 /\
  timestamp_upper ts = ts / 2 ^ 32 /\
  uint32 (ts mod 2 ^ 32) /\ uint32 (ts / 2 ^ 32).
Proof.
  intros Hts. unfold timestamp_lower, timestamp_upper, uint32, u32_bits.
  rewrite !Z.land_ones, Z.shiftr_div_pow2 by lia.
  assert (Hh : 0 <= ts / 2 ^ 32 < 2 ^ 32).
  { split; [apply Z.div_pos; lia|].
    apply Z.div_lt_upper_bound; [lia|].
    change (2 ^ 32 * 2 ^ 32) with (2 ^ 64). lia. }
  rewrite (Z.mod_small (ts / 2 ^ 32)) by assumption.
  repeat split; try lia; apply Z.mod_pos_bound; lia.
Qed.

(** C7: the timestamp-low overlay, at 0x8, holds the lower 32 bits of the
    timestamp and the timestamp-high overlay, at 0xc, the upper 32 bits:
    a 64-bit timestamp stored through the two overlays leaves its lower
    half in the low word and its upper half in the high word, and is read
    back from them.  Each overlay declares one member of 32 bits,
    [time_stamp_31_0] in the low word and [timestamp_l_w] in the high word,
    that is the whole word, the same in both variants: for every 32-bit
    word the member reads as the word itself, the struct view is that one
    value, and a value stored in the member is the new word. *)
Theorem timestamp_words_whole (e : bitfield_endian) (ts wl wh : Z) :
  0 <= ts < 2 ^ 64 -> uint32 wl -> uint32 wh ->
  (offset_of ctu_can_fd_timestamp_l_w = Some 0x8 /\
   offset_of ctu_can_fd_timestamp_u_w = Some 0xc) /\
  (layout e ctu_can_fd_timestamp_l_w = [Field "time_stamp_31_0" 0 32] /\
   layout e ctu_can_fd_timestamp_u_w = [Field "timestamp_l_w" 0 32]) /\
  (members LITTLE_ENDIAN_BITFIELD ctu_can_fd_timestamp_l_w =
     members BIG_ENDIAN_BITFIELD ctu_can_fd_timestamp_l_w /\
   members LITTLE_ENDIAN_BITFIELD ctu_can_fd_timestamp_u_w =
     members BIG_ENDIAN_BITFIELD ctu_can_fd_timestamp_u_w) /\
  (read e ctu_can_fd_timestamp_l_w "time_stamp_31_0" wl = Some wl /\
   read e ctu_can_fd_timestamp_u_w "timestamp_l_w" wh = Some wh) /\
  (decode e ctu_can_fd_timestamp_l_w wl = [("time_stamp_31_0", wl)] /\
   decode e ctu_can_fd_timestamp_u_w wh = [("timestamp_l_w", wh)]) /\
  (forall v,
     write e ctu_can_fd_timestamp_l_w "time_stamp_31_0" v wl =
       Some (v mod 2 ^ 32) /\
     write e ctu_can_fd_timestamp_u_w "timestamp_l_w" v wh =
       Some (v mod 2 ^ 32)) /\
  (forall v, uint32 v ->
     write e ctu_can_fd_timestamp_l_w "time_stamp_31_0" v wl = Some v /\
     write e ctu_can_fd_timestamp_u_w "timestamp_l_w" v wh = Some v) /\
  write_timestamp e ts (wl, wh) = Some (ts mod 2 ^ 32, ts / 2 ^ 32) /\
  read_timestamp e (ts mod 2 ^ 32, ts / 2 ^ 32) = Some ts /\
  read_timestamp e (wl, wh) = Some (wl + 2 ^ 32 * wh).
Proof.
  intros Hts Hwl Hwh.
  assert (Hll : layout e ctu_can_fd_timestamp_l_w =
                [Field "time_stamp_31_0" 0 32]) by (destruct e; reflexivity).
  assert (Hlu : layout e ctu_can_fd_timestamp_u_w =
                [Field "timestamp_l_w" 0 32]) by (destruct e; reflexivity).
  assert (Hget : forall n w, uint32 w -> get_field (Field n 0 32) w = w)
    by (intros n w Hw; apply get_field_whole; (reflexivity || assumption)).
  assert (Hset : forall n v w, uint32 w ->
            set_field (Field n 0 32) v w = v mod 2 ^ 32)
    by (intros n v w Hw; apply set_field_whole;
        (reflexivity || assumption)).
  assert (Hrl : forall w, uint32 w ->
            read e ctu_can_fd_timestamp_l_w "time_stamp_31_0" w = Some w)
    by (intros w Hw; unfold read; rewrite Hll; simpl;
        rewrite Hget by assumption; reflexivity).
  assert (Hru : forall w, uint32 w ->
            read e ctu_can_fd_timestamp_u_w "timestamp_l_w" w = Some w)
    by (intros w Hw; unfold read; rewrite Hlu; simpl;
        rewrite Hget by assumption; reflexivity).
  assert (Hwrl : forall v,
            write e ctu_can_fd_timestamp_l_w "time_stamp_31_0" v wl =
            Some (v mod 2 ^ 32))
    by (intros v; unfold write; rewrite Hll; simpl;
        rewrite Hset by assumption; reflexivity).
  assert (Hwru : forall v,
            write e ctu_can_fd_timestamp_u_w "timestamp_l_w" v wh =
            Some (v mod 2 ^ 32))
    by (intros v; unfold write; rewrite Hlu; simpl;
        rewrite Hset by assumption; reflexivity).
  destruct (timestamp_halves ts Hts) as (Elo & Ehi & Hlo & Hhi).
  split; [split; reflexivity|].
  split; [split; assumption|].
  split; [split; reflexivity|].
  split; [split; [apply Hrl | apply Hru]; assumption|].
  split.
  { unfold decode. rewrite Hll, Hlu. simpl.
    rewrite !Hget by assumption. split; reflexivity. }
  split; [intros v; split; [apply Hwrl | apply Hwru]|].
  split.
  { intros v Hv. rewrite Hwrl, Hwru.
    rewrite Z.mod_small by exact Hv. split; reflexivity. }
  split.
  { unfold write_timestamp. simpl fst. simpl snd.
    rewrite Hwrl, Hwru, Elo, Ehi.
    rewrite Z.mod_mod by lia.
    rewrite (Z.mod_small (ts / 2 ^ 32)) by exact Hhi. reflexivity. }
  split.
  - unfold read_timestamp. simpl fst. simpl snd.
    rewrite Hrl, Hru by assumption. f_equal.
    rewrite timestamp_join_add by (try assumption; apply Hhi).
    pose proof (Z.div_mod ts (2 ^ 32)). lia.
  - unfold read_timestamp. simpl fst. simpl snd.
    rewrite Hrl, Hru by assumption. f_equal.
    apply timestamp_join_add; [assumption | apply Hwh].
Qed.

Lemma timestamp_words_whole_witness :
  write_timestamp BIG_ENDIAN_BITFIELD 0x0123456789abcdef
    (0xdeadbeef, 0xffffffff) = Some (0x89abcdef, 0x01234567) /\
  read_timestamp BIG_ENDIAN_BITFIELD (0x89abcdef, 0x01234567) =
    Some 0x0123456789abcdef.
Proof.
  assert (Hts : 0 <= 0x0123456789abcdef < 2 ^ 64) by lia.
  assert (Hl : uint32 0xdeadbeef) by (unfold uint32, u32_bits; lia).
  assert (Hh : uint32 0xffffffff) by (unfold uint32, u32_bits; lia).
  destruct (timestamp_words_whole BIG_ENDIAN_BITFIELD 0x0123456789abcdef
              0xdeadbeef 0xffffffff Hts Hl Hh)
    as (_ & _ & _ & _ & _ & _ & _ & Hw & Hr & _).
  split; [exact Hw | exact Hr].
Defined.

(** C8: the header has six flag enumerations for the frame-form word, for
    rtr, ide, fdf, tbf, brs and esi_rsv; each has two enumerators, with the
    values 0x0 and 0x1, and the member each belongs to is 1 bit wide, so
    every enumerator is a value of that member: stored in it, it is read
    back unchanged. *)
Theorem flag_enums_fit_one_bit :
  map fst flag_enums = ["rtr"; "ide"; "fdf"; "tbf"; "brs"; "esi_rsv"] /\
  List.length flag_enums = 6%nat /\
  forall m d, In (m, d) flag_enums ->
    List.length (enum_body d) = 2%nat /\
    enum_values d = [0x0; 0x1] /\
    forall e,
      member_width m (members e ctu_can_fd_frame_form_w) = Some 1 /\
      forall v, In v (enum_values d) ->
        0 <= v < 2 ^ 1 /\
        forall w, uint32 w ->
          exists w', write e ctu_can_fd_frame_form_w m v w = Some w' /\
                     read e ctu_can_fd_frame_form_w m w' = Some v.
Proof.
  split; [reflexivity|]. split; [reflexivity|].
  intros m d Hin.
  assert (Hu : In ctu_can_fd_frame_form_w overlays) by (simpl; tauto).
  assert (Hd : List.length (enum_body d) = 2%nat /\
               enum_values d = [0; 1] /\
               forall e, exists f,
                 find_field m (layout e ctu_can_fd_frame_form_w) = Some f /\
                 f_width f = 1 /\
                 member_width m (members e ctu_can_fd_frame_form_w) = Some 1).
  { unfold flag_enums in Hin; simpl in Hin.
    repeat (destruct Hin as [Hin | Hin];
            [inversion Hin; subst; clear Hin;
             split; [reflexivity|]; split; [reflexivity|];
             intros e; destruct e; eexists; repeat split; reflexivity|]).
    contradiction. }
  destruct Hd as (Hlen & Hvals & Hfld).
  split; [assumption|]. split; [assumption|].
  intros e. destruct (Hfld e) as (f & Hfind & Hwd & Hmw).
  split; [assumption|].
  intros v Hv. rewrite Hvals in Hv.
  assert (Hrange : 0 <= v < 2 ^ 1) by (simpl in Hv; lia).
  split; [assumption|].
  intros w Hw.
  destruct (find_field_some _ _ _ Hfind) as [Hf <-].
  exists (set_field f v w). split.
  - apply write_declared; assumption.
  - rewrite read_declared by assumption. f_equal.
    destruct (layout_in_unit _ e f Hu Hf) as (Hl & Hwp & _).
    rewrite get_set_same by lia.
    rewrite Hwd. apply Z.mod_small. assumption.
Qed.

Lemma flag_enums_fit_one_bit_witness :
  enum_values ctu_can_fd_frame_form_w_brs = [0x0; 0x1] /\
  member_width "brs" (members BIG_ENDIAN_BITFIELD ctu_can_fd_frame_form_w) =
    Some 1.
Proof.
  assert (H : In ("brs", ctu_can_fd_frame_form_w_brs) flag_enums)
    by (simpl; tauto).
  destruct (proj2 (proj2 flag_enums_fit_one_bit) _ _ H) as (_ & Hv & He).
  split; [exact Hv | exact (proj1 (He BIG_ENDIAN_BITFIELD))].
Defined.

(** C9: every offset of the memory map is a multiple of 4, the offsets grow
    strictly in declaration order, and each data word sits where a payload
    laid out without gaps from 0x10 on, four bytes a word, has the bytes it
    is named after; the word of bytes 61-64 is word 15 of the payload, at
    0x10 + 4 * 15 = 0x4c. *)
Theorem offsets_aligned_and_increasing :
  Forall (fun o => o mod 4 = 0) offsets /\
  StronglySorted Z.lt offsets /\
  (forall u m n,
     In u data_overlays -> In m (members LITTLE_ENDIAN_BITFIELD u) ->
     byte_number (m_name m) = Some n ->
     offset_of u = Some (payload_word_offset 0x10 n)) /\
  offset_of ctu_can_fd_data_61_64_w = Some (0x10 + 4 * 15) /\
  0x10 + 4 * 15 = 0x4c.
Proof.
  split; [repeat constructor|].
  split; [repeat constructor; simpl; lia|].
  split; [|split; reflexivity].
  intros u m n Hu Hm Hn.
  each_data_overlay Hu; simpl in Hm;
    repeat (destruct Hm as [<- | Hm]); try contradiction;
    inversion Hn; subst; reflexivity.
Qed.

Lemma offsets_aligned_and_increasing_witness :
  offset_of ctu_can_fd_data_5_8_w = Some (payload_word_offset 0x10 7).
Proof.
  apply (proj1 (proj2 (proj2 offsets_aligned_and_increasing))
           ctu_can_fd_data_5_8_w (Bits "data_7" 8) 7).
  - simpl. tauto.
  - simpl. tauto.
  - reflexivity.
Defined.

(** C10: in every overlay, under both variants, for every declared member,
    reserved ones included, and every 32-bit word, an assignment to the
    member gives a 32-bit word in which the member holds the value (cut to
    the member's width), every bit outside the member's range is as before,
    and so every other member, reserved ones included, reads as before. *)
Theorem write_changes_only_its_field (u : union_decl) (e : bitfield_endian)
  (f : field) (v w : Z) :
  In u overlays -> In f (layout e u) -> uint32 w ->
  exists w',
    write e u (f_name f) v w = Some w' /\
    uint32 w' /\
    read e u (f_name f) w' = Some (v mod 2 ^ f_width f) /\
    (forall i, 0 <= i -> covers f i = false ->
       Z.testbit w' i = Z.testbit w i) /\
    (forall g, In g (layout e u) -> g <> f ->
       read e u (f_name g) w' = read e u (f_name g) w) /\
    (forall other, other <> f_name f ->
       read e u other w' = read e u other w).
Proof.
  intros Hu Hf Hw.
  destruct (layout_in_unit u e f Hu Hf) as (Hl & Hwd & Hfit).
  assert (Hother : forall g, In g (layout e u) -> g <> f ->
            get_field g (set_field f v w) = get_field g w).
  { intros g Hg Hne.
    destruct (layout_in_unit u e g Hu Hg) as (Hgl & Hgw & _).
    apply get_set_other; try lia.
    apply (separate_in (layout e u)); auto using layout_separate. }
  exists (set_field f v w).
  split; [apply write_declared; assumption|].
  split; [apply set_field_uint32; (assumption || lia)|].
  split; [rewrite read_declared by assumption;
          rewrite get_set_same by lia; reflexivity|].
  split; [intros i Hi Hc; apply set_field_frame; (assumption || lia)|].
  split.
  - intros g Hg Hne. rewrite !read_declared by assumption.
    f_equal. apply Hother; assumption.
  - intros other Hne. unfold read.
    destruct (find_field other (layout e u)) as [g|] eqn:E; [|reflexivity].
    simpl. f_equal.
    destruct (find_field_some _ _ _ E) as [Hg Hn].
    apply Hother; [assumption|]. intros ->. apply Hne. symmetry. assumption.
Qed.

Lemma write_changes_only_its_field_witness :
  exists w',
    write LITTLE_ENDIAN_BITFIELD ctu_can_fd_frame_form_w "rwcnt" 0x1f
      0xffff07ff = Some w' /\
    read LITTLE_ENDIAN_BITFIELD ctu_can_fd_frame_form_w "dlc" w' =
      read LITTLE_ENDIAN_BITFIELD ctu_can_fd_frame_form_w "dlc" 0xffff07ff.
Proof.
  assert (Hu : In ctu_can_fd_frame_form_w overlays) by (simpl; tauto).
  assert (Hf : In (Field "rwcnt" 11 5)
                 (layout LITTLE_ENDIAN_BITFIELD ctu_can_fd_frame_form_w))
    by (simpl; tauto).
  assert (Hw : uint32 0xffff07ff) by (unfold uint32, u32_bits; lia).
  destruct (write_changes_only_its_field ctu_can_fd_frame_form_w
              LITTLE_ENDIAN_BITFIELD (Field "rwcnt" 11 5) 0x1f 0xffff07ff
              Hu Hf Hw) as (w' & Hwr & _ & _ & _ & _ & Ho).
  exists w'. split; [exact Hwr|].
  apply Ho. discriminate.
Defined.

(** * Further properties of the overlays *)

(** ** One member, one range of bits *)

Lemma covers_iff (f : field) (i : Z) :
  covers f i = true <-> f_lsb f <= i < f_lsb f + f_width f.
Proof.
  unfold covers. rewrite andb_true_iff, Z.leb_le, Z.ltb_lt. tauto.
Qed.

(** X1: the members of a struct cut the raw word into pieces: every member
    has at least one bit and lies inside bits 0..31, no two members share
    a bit, so a member covers only bits of the word, and every bit of the
    word belongs to one member and to no other. *)
Theorem members_partition_the_word (u : union_decl) (e : bitfield_endian) :
  In u overlays ->
  (forall f, In f (layout e u) ->
     0 <= f_lsb f /\ 0 < f_width f /\ f_lsb f + f_width f <= 32) /\
  (forall f g, In f (layout e u) -> In g (layout e u) -> f <> g ->
     disjoint f g) /\
  (forall f i, In f (layout e u) -> covers f i = true -> 0 <= i < 32) /\
  (forall i, 0 <= i < 32 ->
     exists f,
       In f (layout e u) /\ covers f i = true /\
       forall g, In g (layout e u) -> covers g i = true -> g = f).
Proof.
  intros Hu.
  assert (Hunit : forall f, In f (layout e u) ->
            0 <= f_lsb f /\ 0 < f_width f /\ f_lsb f + f_width f <= 32)
    by (intros f Hf; exact (layout_in_unit u e f Hu Hf)).
  split; [exact Hunit|].
  split.
  { intros f g Hf Hg Hne.
    apply (separate_in (layout e u)); auto using layout_separate. }
  split.
  { intros f i Hf Hc. apply covers_iff in Hc.
    destruct (Hunit f Hf) as (? & ? & ?). lia. }
  intros i Hi.
  pose proof (layout_covers u e i Hu Hi) as Hc.
  apply existsb_exists in Hc. destruct Hc as [f [Hf Hc]].
  exists f. split; [assumption|]. split; [assumption|].
  intros g Hg Hcg.
  destruct (ForallOrdPairs_In (layout_separate u e Hu) g f Hg Hf)
    as [E | [D | D]]; [assumption | exfalso | exfalso];
    apply covers_iff in Hc; apply covers_iff in Hcg;
    unfold disjoint in D; lia.
Qed.

Lemma members_partition_the_word_witness :
  (forall f, In f (layout BIG_ENDIAN_BITFIELD ctu_can_fd_identifier_w) ->
     0 <= f_lsb f /\ 0 < f_width f /\ f_lsb f + f_width f <= 32) /\
  exists f,
    In f (layout BIG_ENDIAN_BITFIELD ctu_can_fd_identifier_w) /\
    covers f 28 = true.
Proof.
  assert (Hu : In ctu_can_fd_identifier_w overlays) by (simpl; tauto).
  destruct (members_partition_the_word ctu_can_fd_identifier_w
              BIG_ENDIAN_BITFIELD Hu) as (Hunit & _ & _ & Hbit).
  split; [exact Hunit|].
  assert (Hi : 0 <= 28 < 32) by lia.
  destruct (Hbit 28 Hi) as (f & Hf & Hc & _).
  exists f. split; assumption.
Defined.

(** ** The two variants are one layout *)

Lemma encode_from_endian (u : union_decl) (e : bitfield_endian)
  (s : list (string * Z)) (w0 : Z) :
  In u overlays ->
  encode_from e u w0 s = encode_from LITTLE_ENDIAN_BITFIELD u w0 s.
Proof.
  intros Hu. unfold encode_from. generalize (Some w0) as acc.
  induction s as [|nv s IH]; intros acc; simpl; [reflexivity|].
  rewrite IH. f_equal.
  destruct acc as [w|]; simpl; [|reflexivity].
  apply write_endian. assumption.
Qed.

(** X2: when each branch of the conditional is compiled with the bit order
    it is written for, the [__LITTLE_ENDIAN_BITFIELD] branch with the first
    member at bit 0 and the other branch with the first member at the top
    bit, code that names the members sees no difference between the two:
    the second placement is the first one reversed, a member reads and
    writes the same bits, the struct views list the same values in opposite
    order, and a struct view taken in one gives the word back when it is
    assigned in the other.  This needs the bit order to change with the
    branch: placed from bit 0, the second branch of the frame-form word
    would have dlc in bits 28..31. *)
Theorem variants_agree (u : union_decl) (e e' : bitfield_endian)
  (name : string) (v w : Z) :
  In u overlays ->
  (layout LITTLE_ENDIAN_BITFIELD u = alloc_up 0 (s_little u) /\
   layout BIG_ENDIAN_BITFIELD u = alloc_down 32 (s_big u)) /\
  alloc_down 32 (s_big u) = rev (alloc_up 0 (s_little u)) /\
  find_field name (alloc_down 32 (s_big u)) =
    find_field name (alloc_up 0 (s_little u)) /\
  read e u name w = read e' u name w /\
  write e u name v w = write e' u name v w /\
  decode BIG_ENDIAN_BITFIELD u w = rev (decode LITTLE_ENDIAN_BITFIELD u w) /\
  (uint32 w -> encode e' u (decode e u w) = Some w) /\
  find_field "dlc" (alloc_up 0 (s_big ctu_can_fd_frame_form_w)) =
    Some (Field "dlc" 28 4).
Proof.
  intros Hu.
  split; [split; reflexivity|].
  split; [exact (layout_big_rev u Hu)|].
  split; [exact (find_field_endian u name BIG_ENDIAN_BITFIELD Hu)|].
  split; [rewrite (read_endian u name e), (read_endian u name e');
          trivial|].
  split; [rewrite (write_endian u name e), (write_endian u name e');
          trivial|].
  split; [unfold decode; rewrite (layout_big_rev u Hu); apply map_rev|].
  split; [|reflexivity].
  intros Hw. unfold encode.
  rewrite (encode_from_endian u e'), <- (encode_from_endian u e)
    by assumption.
  apply encode_decode; assumption.
Qed.

Lemma variants_agree_witness :
  read LITTLE_ENDIAN_BITFIELD ctu_can_fd_frame_form_w "rwcnt" 0x0000a5a5 =
  read BIG_ENDIAN_BITFIELD ctu_can_fd_frame_form_w "rwcnt" 0x0000a5a5.
Proof.
  assert (Hu : In ctu_can_fd_frame_form_w overlays) by (simpl; tauto).
  destruct (variants_agree ctu_can_fd_frame_form_w LITTLE_ENDIAN_BITFIELD
              BIG_ENDIAN_BITFIELD "rwcnt" 0 0x0000a5a5 Hu)
    as (_ & _ & _ & Hr & _).
  exact Hr.
Defined.

(** ** Assignments *)

Lemma set_field_comm (f g : field) (v x w : Z) :
  0 <= f_lsb f -> 0 <= f_width f -> 0 <= f_lsb g -> 0 <= f_width g ->
  disjoint f g ->
  set_field f v (set_field g x w) = set_field g x (set_field f v w).
Proof.
  intros Hfl Hfw Hgl Hgw D.
  apply Z.bits_inj'. intros i Hi.
  rewrite !set_field_spec by assumption.
  case_eq (covers f i); intros Hf; case_eq (covers g i); intros Hg;
    try reflexivity.
  apply covers_iff in Hf. apply covers_iff in Hg.
  unfold disjoint in D. lia.
Qed.

Lemma set_set_same (f : field) (v1 v2 w : Z) :
  0 <= f_lsb f -> 0 <= f_width f ->
  set_field f v2 (set_field f v1 w) = set_field f v2 w.
Proof.
  intros Hl Hw. apply Z.bits_inj'. intros i Hi.
  rewrite !set_field_spec by assumption.
  destruct (covers f i); reflexivity.
Qed.

Lemma set_get_same (f : field) (w : Z) :
  0 <= f_lsb f -> 0 <= f_width f ->
  set_field f (get_field f w) w = w.
Proof.
  intros Hl Hw. apply Z.bits_inj'. intros i Hi.
  rewrite set_field_spec by assumption.
  case_eq (covers f i); intros Hc; [|reflexivity].
  apply covers_iff in Hc.
  rewrite get_field_spec by lia.
  replace (i - f_lsb f + f_lsb f) with i by lia.
  destruct (Z.ltb_spec (i - f_lsb f) (f_width f)); [reflexivity | lia].
Qed.

Lemma find_field_unit (u : union_decl) (e : bitfield_endian) (n : string)
  (f : field) :
  In u overlays -> find_field n (layout e u) = Some f ->
  In f (layout e u) /\ f_name f = n /\ 0 <= f_lsb f /\ 0 <= f_width f.
Proof.
  intros Hu Hfind. destruct (find_field_some _ _ _ Hfind) as [Hf Hn].
  destruct (layout_in_unit u e f Hu Hf) as (? & ? & _).
  repeat split; (assumption || lia).
Qed.

Lemma assign_none (e : bitfield_endian) (u : union_decl)
  (s : list (string * Z)) :
  fold_left (assign e u) s None = None.
Proof. induction s as [|nv s IH]; simpl; [reflexivity | assumption]. Qed.

Lemma assign_swap (u : union_decl) (e : bitfield_endian)
  (x y : string * Z) (acc : option Z) :
  In u overlays -> fst x <> fst y ->
  assign e u (assign e u acc x) y = assign e u (assign e u acc y) x.
Proof.
  intros Hu Hne. destruct acc as [w|]; simpl; [|reflexivity].
  unfold write.
  destruct (find_field (fst x) (layout e u)) as [f|] eqn:Ef;
    destruct (find_field (fst y) (layout e u)) as [g|] eqn:Eg; simpl;
    unfold write; rewrite ?Ef, ?Eg; simpl; try reflexivity.
  destruct (find_field_unit u e _ f Hu Ef) as (Hf & Hnf & Hfl & Hfw).
  destruct (find_field_unit u e _ g Hu Eg) as (Hg & Hng & Hgl & Hgw).
  apply f_equal. apply set_field_comm; try assumption.
  apply (separate_in (layout e u)); auto using layout_separate.
  intros ->. apply Hne. congruence.
Qed.

Lemma assign_permutation (u : union_decl) (e : bitfield_endian)
  (s s' : list (string * Z)) :
  In u overlays -> Permutation s s' -> NoDup (map fst s) ->
  forall acc, fold_left (assign e u) s acc = fold_left (assign e u) s' acc.
Proof.
  intros Hu Hp.
  induction Hp as [|x l l' Hp IH|x y l|l l' l'' Hp1 IH1 Hp2 IH2];
    intros Hnd acc; simpl.
  - reflexivity.
  - simpl in Hnd. inversion Hnd as [|? ? _ Hnd']; subst. apply IH.
    assumption.
  - f_equal. apply assign_swap; [assumption|].
    simpl in Hnd. inversion Hnd as [|? ? Hnotin _]; subst.
    intros E. apply Hnotin. left. symmetry. assumption.
  - rewrite IH1 by assumption. apply IH2.
    apply (Permutation_NoDup (l := map fst l));
      [apply Permutation_map|]; assumption.
Qed.

(** X3: assignments to different members may be made in any order: two lists
    of assignments that name no member twice and are permutations of each
    other leave the same word (or both fail, when one of the names is not
    a member). *)
Theorem assignment_order_is_irrelevant (u : union_decl) (e : bitfield_endian)
  (s s' : list (string * Z)) (w : Z) :
  In u overlays -> NoDup (map fst s) -> Permutation s s' ->
  encode_from e u w s = encode_from e u w s'.
Proof.
  intros Hu Hnd Hp. unfold encode_from.
  apply assign_permutation; assumption.
Qed.

Lemma assignment_order_is_irrelevant_witness :
  encode_from BIG_ENDIAN_BITFIELD ctu_can_fd_frame_form_w 0xffffffff
    [("dlc", 8); ("brs", 0); ("rwcnt", 5)] =
  encode_from BIG_ENDIAN_BITFIELD ctu_can_fd_frame_form_w 0xffffffff
    [("rwcnt", 5); ("dlc", 8); ("brs", 0)].
Proof.
  apply assignment_order_is_irrelevant.
  - simpl. tauto.
  - repeat constructor; simpl; intuition discriminate.
  - apply Permutation_sym.
    apply (Permutation_cons_app [("dlc", 8); ("brs", 0)] []).
    apply Permutation_refl.
Defined.

(** X4: of two assignments to one member the second one counts, and assigning
    to a member the value it already has changes nothing; for a name that
    is not a member both sides fail alike. *)
Theorem last_assignment_wins (u : union_decl) (e : bitfield_endian)
  (name : string) (v1 v2 w : Z) :
  In u overlays ->
  encode_from e u w [(name, v1); (name, v2)] = write e u name v2 w /\
  (forall v, read e u name w = Some v -> write e u name v w = Some w).
Proof.
  intros Hu. unfold encode_from, read, write. simpl. unfold write.
  destruct (find_field name (layout e u)) as [f|] eqn:E; simpl.
  - destruct (find_field_unit u e _ f Hu E) as (_ & _ & Hl & Hw).
    unfold write. rewrite ?E. simpl. split.
    + rewrite set_set_same by assumption. reflexivity.
    + intros v Hv. inversion Hv; subst.
      rewrite set_get_same by assumption. reflexivity.
  - split; [reflexivity | discriminate].
Qed.

Lemma last_assignment_wins_witness :
  encode_from LITTLE_ENDIAN_BITFIELD ctu_can_fd_data_1_4_w 0x11223344
    [("data_3", 0xaa); ("data_3", 0xbb)] =
  write LITTLE_ENDIAN_BITFIELD ctu_can_fd_data_1_4_w "data_3" 0xbb 0x11223344.
Proof.
  apply (last_assignment_wins ctu_can_fd_data_1_4_w LITTLE_ENDIAN_BITFIELD
           "data_3" 0xaa 0xbb 0x11223344).
  simpl. tauto.
Defined.

(** ** Names and widths *)

Lemma find_alloc_up (n : string) (ms : list member) (pos : Z) :
  option_map f_width (find_field n (alloc_up pos ms)) = member_width n ms.
Proof.
  unfold find_field, member_width. revert pos.
  induction ms as [|m ms IH]; intros pos; simpl; [reflexivity|].
  destruct (String.eqb (m_name m) n); [reflexivity | apply IH].
Qed.

Lemma find_alloc_down (n : string) (ms : list member) (top : Z) :
  option_map f_width (find_field n (alloc_down top ms)) = member_width n ms.
Proof.
  unfold find_field, member_width. revert top.
  induction ms as [|m ms IH]; intros top; simpl; [reflexivity|].
  destruct (String.eqb (m_name m) n); [reflexivity | apply IH].
Qed.

Lemma find_layout_width (u : union_decl) (e : bitfield_endian) (n : string) :
  option_map f_width (find_field n (layout e u)) =
  member_width n (members e u).
Proof.
  destruct e; simpl; [apply find_alloc_up | apply find_alloc_down].
Qed.

(** X6: a member read from any word, 32-bit or not, is a value of the width
    the member is declared with: never negative, never 2^width or more. *)
Theorem read_within_declared_width (u : union_decl) (e : bitfield_endian)
  (name : string) (v w : Z) :
  In u overlays -> read e u name w = Some v ->
  exists width,
    member_width name (members e u) = Some width /\
    0 < width <= 32 /\ 0 <= v < 2 ^ width.
Proof.
  intros Hu Hr. unfold read in Hr.
  pose proof (find_layout_width u e name) as Hw.
  destruct (find_field name (layout e u)) as [f|] eqn:E; [|discriminate].
  simpl in Hr, Hw. inversion Hr; subst.
  destruct (find_field_some _ _ _ E) as [Hf _].
  destruct (layout_in_unit u e f Hu Hf) as (Hl & Hwd & Hfit).
  exists (f_width f). split; [symmetry; assumption|].
  split; [unfold u32_bits in Hfit; lia|].
  apply get_field_range. lia.
Qed.

Lemma read_within_declared_width_witness :
  exists width,
    member_width "dlc" (members BIG_ENDIAN_BITFIELD ctu_can_fd_frame_form_w)
      = Some width /\
    0 <= 0xf < 2 ^ width.
Proof.
  assert (Hu : In ctu_can_fd_frame_form_w overlays) by (simpl; tauto).
  destruct (read_within_declared_width ctu_can_fd_frame_form_w
              BIG_ENDIAN_BITFIELD "dlc" 0xf (-1) Hu eq_refl)
    as (width & Hw & _ & Hv).
  exists width. split; assumption.
Defined.

(** ** The word as a sum and the masks *)

Lemma recompose_app (a b : list field) (w : Z) :
  recompose (a ++ b) w = recompose a w + recompose b w.
Proof.
  unfold recompose. induction a as [|f a IH]; simpl; [reflexivity|].
  rewrite IH. lia.
Qed.

Lemma recompose_rev (ly : list field) (w : Z) :
  recompose (rev ly) w = recompose ly w.
Proof.
  induction ly as [|f ly IH]; simpl; [reflexivity|].
  rewrite recompose_app, IH. unfold recompose. simpl. lia.
Qed.

Lemma get_field_div_mod (f : field) (w : Z) :
  0 <= f_lsb f -> 0 <= f_width f ->
  get_field f w = (w / 2 ^ f_lsb f) mod 2 ^ f_width f.
Proof.
  intros Hl Hw. unfold get_field.
  rewrite Z.land_ones, Z.shiftr_div_pow2 by assumption. reflexivity.
Qed.

Lemma recompose_alloc_up (ms : list member) (pos w : Z) :
  Forall (fun m => 0 < m_width m) ms -> 0 <= pos ->
  recompose (alloc_up pos ms) w =
  ((w / 2 ^ pos) mod 2 ^ total_width ms) * 2 ^ pos.
Proof.
  intros Hpos. revert pos.
  induction Hpos as [|m ms Hm Hms IH]; intros pos Hp.
  - simpl. rewrite Z.mod_1_r. reflexivity.
  - pose proof (total_width_nonneg ms Hms) as Hnn.
    change (recompose (alloc_up pos (m :: ms)) w)
      with (get_field (Field (m_name m) pos (m_width m)) w * 2 ^ pos +
            recompose (alloc_up (pos + m_width m) ms) w).
    rewrite IH by lia.
    rewrite get_field_div_mod by (simpl; lia). simpl.
    assert (H1 : 0 < 2 ^ pos) by (apply Z.pow_pos_nonneg; lia).
    assert (H2 : 0 < 2 ^ m_width m) by (apply Z.pow_pos_nonneg; lia).
    assert (H3 : 0 < 2 ^ total_width ms) by (apply Z.pow_pos_nonneg; lia).
    rewrite (Z.pow_add_r 2 pos (m_width m)) by lia.
    rewrite (Z.pow_add_r 2 (m_width m) (total_width ms)) by lia.
    rewrite <- Z.div_div by lia.
    rewrite (Z.rem_mul_r (w / 2 ^ pos)) by lia.
    ring.
Qed.

(** X7: the raw word is the sum of its members, each times two to the power of
    its lowest bit: shifting and adding the members gives the low 32 bits
    of any word, and so a 32-bit word itself. *)
Theorem word_is_sum_of_members (u : union_decl) (e : bitfield_endian)
  (w : Z) :
  In u overlays ->
  recompose (layout e u) w = w mod 2 ^ 32 /\
  (uint32 w -> recompose (layout e u) w = w).
Proof.
  intros Hu.
  assert (H : recompose (layout e u) w = w mod 2 ^ 32).
  { assert (Hle : recompose (layout LITTLE_ENDIAN_BITFIELD u) w
                  = w mod 2 ^ 32).
    { unfold layout.
      rewrite recompose_alloc_up
        by (try lia; apply (member_widths_positive u
                              LITTLE_ENDIAN_BITFIELD Hu)).
      pose proof (total_width_overlays u LITTLE_ENDIAN_BITFIELD Hu) as Ht.
      simpl in Ht. rewrite Ht.
      change (2 ^ 0) with 1. rewrite Z.div_1_r, Z.mul_1_r. reflexivity. }
    destruct e; [assumption|].
    rewrite (layout_big_rev u Hu), recompose_rev. assumption. }
  split; [assumption|].
  intros Hw. rewrite H. apply Z.mod_small. exact Hw.
Qed.

Lemma word_is_sum_of_members_witness :
  recompose (layout BIG_ENDIAN_BITFIELD ctu_can_fd_identifier_w) 0x9abcdef0 =
  0x9abcdef0.
Proof.
  apply (word_is_sum_of_members ctu_can_fd_identifier_w BIG_ENDIAN_BITFIELD).
  - simpl. tauto.
  - unfold uint32, u32_bits. lia.
Defined.

Lemma all_masks_spec (ly : list field) (i : Z) :
  Forall (fun f => 0 <= f_lsb f /\ 0 <= f_width f) ly -> 0 <= i ->
  Z.testbit (all_masks ly) i = existsb (fun f => covers f i) ly.
Proof.
  intros Hwf Hi. unfold all_masks.
  induction Hwf as [|f ly [Hl Hw] _ IH]; simpl; [apply Z.bits_0|].
  rewrite Z.lor_spec, IH, field_mask_spec by assumption. reflexivity.
Qed.

(** X8: the masks of the members of a struct share no bit and together make
    0xffffffff: masking a word with each of them splits it into parts that
    join to the word again. *)
Theorem masks_split_the_word (u : union_decl) (e : bitfield_endian) :
  In u overlays ->
  all_masks (layout e u) = 0xffffffff /\
  (forall f g, In f (layout e u) -> In g (layout e u) -> f <> g ->
     Z.land (field_mask f) (field_mask g) = 0) /\
  (forall f w, In f (layout e u) ->
     Z.land w (field_mask f) = get_field f w * 2 ^ f_lsb f).
Proof.
  intros Hu.
  assert (Hwf : Forall (fun f => 0 <= f_lsb f /\ 0 <= f_width f)
                  (layout e u)).
  { apply Forall_forall. intros f Hf.
    destruct (layout_in_unit u e f Hu Hf) as (? & ? & _). lia. }
  split; [|split].
  - apply Z.bits_inj'. intros i Hi.
    rewrite all_masks_spec by assumption.
    change 0xffffffff with (Z.ones 32).
    rewrite Z.testbit_ones_nonneg by lia.
    destruct (Z.ltb_spec i 32).
    + apply layout_covers; [assumption | unfold u32_bits; lia].
    + destruct (existsb (fun f => covers f i) (layout e u)) eqn:Ex;
        [|reflexivity].
      apply existsb_exists in Ex. destruct Ex as [f [Hf Hc]].
      apply covers_iff in Hc.
      destruct (layout_in_unit u e f Hu Hf) as (_ & _ & Hfit).
      unfold u32_bits in Hfit. lia.
  - intros f g Hf Hg Hne.
    pose proof (separate_in _ f g (layout_separate u e Hu) Hf Hg Hne) as D.
    destruct (layout_in_unit u e f Hu Hf) as (? & ? & _).
    destruct (layout_in_unit u e g Hu Hg) as (? & ? & _).
    apply Z.bits_inj'. intros i Hi.
    rewrite Z.land_spec, !field_mask_spec, Z.bits_0 by lia.
    case_eq (covers f i); intros Hcf; [|reflexivity].
    case_eq (covers g i); intros Hcg; [|reflexivity].
    apply covers_iff in Hcf. apply covers_iff in Hcg.
    unfold disjoint in D. lia.
  - intros f w Hf.
    destruct (layout_in_unit u e f Hu Hf) as (Hl & Hwd & _).
    rewrite <- Z.shiftl_mul_pow2 by assumption.
    apply Z.bits_inj'. intros i Hi.
    rewrite Z.land_spec, field_mask_spec, Z.shiftl_spec by lia.
    case_eq (covers f i); intros Hc.
    + apply covers_iff in Hc. rewrite get_field_spec by lia.
      replace (i - f_lsb f + f_lsb f) with i by lia.
      destruct (Z.ltb_spec (i - f_lsb f) (f_width f)); [|lia].
      rewrite andb_true_r. reflexivity.
    + rewrite andb_false_r.
      destruct (Z.ltb_spec i (f_lsb f)).
      * rewrite Z.testbit_neg_r by lia. reflexivity.
      * rewrite get_field_spec by lia.
        destruct (Z.ltb_spec (i - f_lsb f) (f_width f)); [|reflexivity].
        exfalso. assert (covers f i = true) by (apply covers_iff; lia).
        congruence.
Qed.

Lemma masks_split_the_word_witness :
  all_masks (layout BIG_ENDIAN_BITFIELD ctu_can_fd_frame_form_w) = 0xffffffff.
Proof.
  apply (masks_split_the_word ctu_can_fd_frame_form_w BIG_ENDIAN_BITFIELD).
  simpl. tauto.
Defined.

(** ** Flags and their enumerators *)

Lemma flag_enum_member (m : string) (d : enum_decl) :
  In (m, d) flag_enums ->
  (exists a b, enum_body d = [a; b] /\ e_value a = 0 /\ e_value b = 1) /\
  forall e, exists f,
    find_field m (layout e ctu_can_fd_frame_form_w) = Some f /\
    f_width f = 1.
Proof.
  intros Hin. unfold flag_enums in Hin; simpl in Hin.
  repeat (destruct Hin as [Hin | Hin];
          [inversion Hin; subst; clear Hin;
           split; [do 2 eexists; repeat split; reflexivity|];
           intros e; destruct e; eexists; split; reflexivity|]).
  contradiction.
Qed.

(** X9: whatever the frame-form word holds, each flag member reads as the value
    of exactly one enumerator of its enumeration: a switch over the
    enumerators misses no case. *)
Theorem every_flag_value_is_named (m : string) (d : enum_decl)
  (e : bitfield_endian) (w : Z) :
  In (m, d) flag_enums ->
  exists en,
    In en (enum_body d) /\
    read e ctu_can_fd_frame_form_w m w = Some (e_value en) /\
    forall en', In en' (enum_body d) -> e_value en' = e_value en -> en' = en.
Proof.
  intros Hin.
  destruct (flag_enum_member m d Hin) as [(a & b & Hb & Ha0 & Hb1) Hf].
  destruct (Hf e) as (f & Hfind & Hw).
  assert (Hu : In ctu_can_fd_frame_form_w overlays) by (simpl; tauto).
  destruct (find_field_unit _ e _ f Hu Hfind) as (_ & _ & Hl & Hwd).
  pose proof (get_field_range f Hwd w) as Hr. rewrite Hw in Hr.
  unfold read. rewrite Hfind, Hb. simpl.
  assert (Hv : get_field f w = 0 \/ get_field f w = 1) by lia.
  destruct Hv as [Hv | Hv]; rewrite Hv.
  - exists a. split; [left; reflexivity|]. split; [congruence|].
    intros en' [<- | [<- | []]] E; [reflexivity | lia].
  - exists b. split; [right; left; reflexivity|]. split; [congruence|].
    intros en' [<- | [<- | []]] E; [lia | reflexivity].
Qed.

Lemma every_flag_value_is_named_witness :
  exists en,
    In en (enum_body ctu_can_fd_frame_form_w_fdf) /\
    read BIG_ENDIAN_BITFIELD ctu_can_fd_frame_form_w "fdf" 0x00000080 =
      Some (e_value en).
Proof.
  assert (H : In ("fdf", ctu_can_fd_frame_form_w_fdf) flag_enums)
    by (simpl; tauto).
  destruct (every_flag_value_is_named "fdf" ctu_can_fd_frame_form_w_fdf
              BIG_ENDIAN_BITFIELD 0x00000080 H) as (en & Hen & Hr & _).
  exists en. split; assumption.
Defined.

(** ** The memory map *)

Lemma enum_lookup_some (n : string) (d : enum_decl) (o : Z) :
  enum_lookup n d = Some o ->
  exists en, In en (enum_body d) /\ e_name en = n /\ e_value en = o.
Proof.
  unfold enum_lookup. intros H.
  destruct (find (fun en => String.eqb (e_name en) n) (enum_body d))
    as [en|] eqn:E; [|discriminate].
  apply find_some in E. destruct E as [Hin He].
  exists en. split; [assumption|].
  split; [apply String.eqb_eq; assumption | inversion H; reflexivity].
Qed.

(** X10: two different names of the memory map are two different words of the
    frame buffer: their four bytes do not overlap, and all the words lie
    between offset 0 and the end of the last data word. *)
Theorem memory_map_words_do_not_overlap (n1 n2 : string) (o1 o2 : Z) :
  enum_lookup n1 ctu_can_fd_can_frame_format = Some o1 ->
  enum_lookup n2 ctu_can_fd_can_frame_format = Some o2 ->
  n1 <> n2 ->
  (o1 + 4 <= o2 \/ o2 + 4 <= o1) /\
  0 <= o1 /\ o1 + 4 <= 0x4c + 4 /\ 0 <= o2 /\ o2 + 4 <= 0x4c + 4.
Proof.
  intros H1 H2 Hne.
  apply enum_lookup_some in H1. destruct H1 as (a & Ha & Hna & Hva).
  apply enum_lookup_some in H2. destruct H2 as (b & Hb & Hnb & Hvb).
  subst n1 n2 o1 o2. simpl in Ha, Hb.
  repeat (destruct Ha as [<- | Ha]); try contradiction;
    repeat (destruct Hb as [<- | Hb]); try contradiction;
    simpl in *; try lia; exfalso; apply Hne; reflexivity.
Qed.

Lemma memory_map_words_do_not_overlap_witness :
  0x14 + 4 <= 0x4c \/ 0x4c + 4 <= 0x14.
Proof.
  apply (memory_map_words_do_not_overlap "CTU_CAN_FD_DATA_5_8_W"
           "CTU_CAN_FD_DATA_61_64_W" 0x14 0x4c); try reflexivity.
  discriminate.
Defined.

(** ** Filling a union *)

(** X11: a union need not be cleared before it is filled: once every member has
    been assigned, nothing of the old 32-bit word is left, and the word is
    the one whose struct view was assigned. *)
Theorem assigning_all_members_overwrites (u : union_decl)
  (e : bitfield_endian) (w0 w : Z) :
  In u overlays -> uint32 w0 -> uint32 w ->
  encode_from e u w0 (decode e u w) = Some w.
Proof.
  intros Hu Hw0 Hw. unfold decode.
  rewrite encode_from_decode by (auto using incl_refl).
  f_equal. apply Z.bits_inj'. intros i Hi.
  rewrite refill_bits; [|
    apply Forall_forall; intros f Hf;
    destruct (layout_in_unit u e f Hu Hf) as (? & ? & ?); lia
    | assumption].
  destruct (Z.ltb_spec i u32_bits).
  - rewrite layout_covers by (auto; lia). reflexivity.
  - rewrite (uint32_high_bits w0), (uint32_high_bits w) by assumption.
    destruct (existsb _ _); reflexivity.
Qed.

Lemma assigning_all_members_overwrites_witness :
  encode_from LITTLE_ENDIAN_BITFIELD ctu_can_fd_data_5_8_w 0xffffffff
    (decode LITTLE_ENDIAN_BITFIELD ctu_can_fd_data_5_8_w 0x01020304) =
  Some 0x01020304.
Proof.
  apply assigning_all_members_overwrites.
  - simpl. tauto.
  - unfold uint32, u32_bits. lia.
  - unfold uint32, u32_bits. lia.
Defined.
